(** * Siddon-Jacobs ray casting interpolator: a shallow embedding

    Embedding of [itk::SiddonJacobsRayCastInterpolateImageFunction]
    (include/itkSiddonJacobsRayCastInterpolateImageFunction.h / .hxx).

    Numeric conventions of the embedding.
    - [float] and [double] values are exact rationals [Q]: rounding, infinities
      and NaN are outside the model.  A division whose divisor is zero is
      reported as [DivisionByZero] instead of producing an infinity.
    - [int], [IndexValueType] and [SizeValueType] values are unbounded [Z].
    - [std::min], [std::max], [ceil], [floor] and [itk::Math::abs] follow
      their C++ definitions.
    - the [while] loop is run with an iteration budget; exhausting the budget
      is reported as [OutOfFuel]. *)

From Stdlib Require Import QArith ZArith NArith List Lia Lqa Qround Qabs Qminmax Bool.
Import ListNotations.

Local Open Scope Q_scope.

(** ** Scalars *)

Module Num.

Definition Qltb (a b : Q) : bool := negb (Qle_bool b a).
Definition Qneqb (a b : Q) : bool := negb (Qeq_bool a b).

(** [std::min(a, b)] is [(b < a) ? b : a]. *)
Definition std_min (a b : Q) : Q := if Qltb b a then b else a.

(** [std::max(a, b)] is [(a < b) ? b : a]. *)
Definition std_max (a b : Q) : Q := if Qltb a b then b else a.

(** [(int)ceil(x)] and [(int)floor(x)]. *)
Definition ceil (x : Q) : Z := Qceiling x.
Definition floor (x : Q) : Z := Qfloor x.

(** [itk::Math::abs]. *)
Definition abs (x : Q) : Q := Qabs x.

End Num.
Import Num.

(** ** Fixed arrays of length three *)

Inductive Axis : Type := AxX | AxY | AxZ.

Record Vec3 (A : Type) : Type := mkVec3 { c0 : A; c1 : A; c2 : A }.
Arguments mkVec3 {A} _ _ _.
Arguments c0 {A} _.
Arguments c1 {A} _.
Arguments c2 {A} _.

Definition nth3 {A} (v : Vec3 A) (k : Axis) : A :=
  match k with AxX => c0 v | AxY => c1 v | AxZ => c2 v end.

Definition upd3 {A} (v : Vec3 A) (k : Axis) (a : A) : Vec3 A :=
  match k with
  | AxX => mkVec3 a (c1 v) (c2 v)
  | AxY => mkVec3 (c0 v) a (c2 v)
  | AxZ => mkVec3 (c0 v) (c1 v) a
  end.

Definition Point := Vec3 Q.
Definition Index := Vec3 Z.

(** ** Results of fallible computations *)

Inductive Divisor : Type :=
| RayComponent (k : Axis)
| PixelSpacing (k : Axis).

Inductive Result (A : Type) : Type :=
| Ok (a : A)
| DivisionByZero (d : Divisor)
| SingularMatrix
| OutOfFuel.
Arguments Ok {A} _.
Arguments DivisionByZero {A} _.
Arguments SingularMatrix {A}.
Arguments OutOfFuel {A}.

Definition bind {A B} (r : Result A) (f : A -> Result B) : Result B :=
  match r with
  | Ok a => f a
  | DivisionByZero d => DivisionByZero d
  | SingularMatrix => SingularMatrix
  | OutOfFuel => OutOfFuel
  end.

Notation "x <- e1 ;; e2" := (bind e1 (fun x => e2))
  (at level 100, e1 at next level, right associativity).

(** [a / b], where [b] is the divisor named [d]. *)
Definition divide (d : Divisor) (a b : Q) : Result Q :=
  if Qeq_bool b 0 then DivisionByZero d else Ok (a / b).

(** ** The CT volume *)

Record Image : Type := mkImage {
  sizeCT : Vec3 Z;
  ctPixelSpacing : Vec3 Q;
  ctOrigin : Point;
  GetPixel : Index -> Q
}.

(** ** The ray/volume set-up of [Evaluate] (lines 158-325) *)

Module Siddon.

Section Setup.

Variable img : Image.
Variable SourceWorld : Point.
Variable drrPixelWorld : Point.

Definition rayVector : Vec3 Q :=
  mkVec3 (c0 drrPixelWorld - c0 SourceWorld)
         (c1 drrPixelWorld - c1 SourceWorld)
         (c2 drrPixelWorld - c2 SourceWorld).

(** Lines 165-202: the parametric values at the two bounding planes of axis
    [k], ordered; the pair is [(alphaKmin, alphaKmax)]. *)
Definition slab (k : Axis) : Result (Q * Q) :=
  if Qneqb (nth3 rayVector k) 0 then
    alpha1 <- divide (RayComponent k) (0 - nth3 SourceWorld k) (nth3 rayVector k) ;;
    alphaN <- divide (RayComponent k)
                (inject_Z (nth3 (sizeCT img) k) * nth3 (ctPixelSpacing img) k
                 - nth3 SourceWorld k)
                (nth3 rayVector k) ;;
    Ok (std_min alpha1 alphaN, std_max alpha1 alphaN)
  else
    Ok (-2 # 1, 2 # 1).

(** Lines 206-207. *)
Definition alphaMin_of (x y z : Q * Q) : Q :=
  std_max (std_max (fst x) (fst y)) (fst z).
Definition alphaMax_of (x y z : Q * Q) : Q :=
  std_min (std_min (snd x) (snd y)) (snd z).

(** Lines 213-220: the continuous index of the first intersection. *)
Definition firstIntersection (alphaMin : Q) (k : Axis) : Q :=
  nth3 SourceWorld k + alphaMin * nth3 rayVector k.

Definition firstIntersectionIndex (alphaMin : Q) (k : Axis) : Result Q :=
  divide (PixelSpacing k) (firstIntersection alphaMin k) (nth3 (ctPixelSpacing img) k).

(** Lines 231-262: the running parametric value of axis [k]. *)
Definition alpha_start (k : Axis) (indexUp indexDown : Z) : Result Q :=
  if Qeq_bool (nth3 rayVector k) 0 then
    Ok (2 # 1)
  else
    up <- divide (RayComponent k)
            (inject_Z indexUp * nth3 (ctPixelSpacing img) k - nth3 SourceWorld k)
            (nth3 rayVector k) ;;
    down <- divide (RayComponent k)
              (inject_Z indexDown * nth3 (ctPixelSpacing img) k - nth3 SourceWorld k)
              (nth3 rayVector k) ;;
    Ok (std_max up down).

(** Lines 265-288: the parametric increment of axis [k]. *)
Definition alphaU (k : Axis) : Result Q :=
  if Qneqb (nth3 rayVector k) 0 then
    divide (RayComponent k) (nth3 (ctPixelSpacing img) k) (abs (nth3 rayVector k))
  else
    Ok (999 # 1).

(** Lines 290-314: the index increment of axis [k]. *)
Definition indexU (k : Axis) : Z :=
  if Qltb (nth3 SourceWorld k) (nth3 drrPixelWorld k) then 1%Z else (-1)%Z.

End Setup.

(** The local variables of [Evaluate] that are live at the loop head. *)
Record Trav : Type := mkTrav {
  alphaX : Q;
  alphaY : Q;
  alphaZ : Q;
  alphaCmin : Q;
  cIndex : Index;
  d12 : Q
}.

(** The values fixed before the loop. *)
Record Setup : Type := mkSetup {
  alphaMin : Q;
  alphaMax : Q;
  alphaUx : Q;
  alphaUy : Q;
  alphaUz : Q;
  iU : Z;
  jU : Z;
  kU : Z;
  entry : Trav
}.

Definition setup (img : Image) (SourceWorld drrPixelWorld : Point) : Result Setup :=
  bx <- slab img SourceWorld drrPixelWorld AxX ;;
  by_ <- slab img SourceWorld drrPixelWorld AxY ;;
  bz <- slab img SourceWorld drrPixelWorld AxZ ;;
  let aMin := alphaMin_of bx by_ bz in
  let aMax := alphaMax_of bx by_ bz in
  fx <- firstIntersectionIndex img SourceWorld drrPixelWorld aMin AxX ;;
  fy <- firstIntersectionIndex img SourceWorld drrPixelWorld aMin AxY ;;
  fz <- firstIntersectionIndex img SourceWorld drrPixelWorld aMin AxZ ;;
  let up := mkVec3 (ceil fx) (ceil fy) (ceil fz) in
  let down := mkVec3 (floor fx) (floor fy) (floor fz) in
  aX <- alpha_start img SourceWorld drrPixelWorld AxX (c0 up) (c0 down) ;;
  aY <- alpha_start img SourceWorld drrPixelWorld AxY (c1 up) (c1 down) ;;
  aZ <- alpha_start img SourceWorld drrPixelWorld AxZ (c2 up) (c2 down) ;;
  ux <- alphaU img SourceWorld drrPixelWorld AxX ;;
  uy <- alphaU img SourceWorld drrPixelWorld AxY ;;
  uz <- alphaU img SourceWorld drrPixelWorld AxZ ;;
  Ok (mkSetup aMin aMax ux uy uz
        (indexU SourceWorld drrPixelWorld AxX)
        (indexU SourceWorld drrPixelWorld AxY)
        (indexU SourceWorld drrPixelWorld AxZ)
        (mkTrav aX aY aZ (std_min (std_min aX aY) aZ) down 0)).

(** ** The traversal loop (lines 327-365) *)

Section Loop.

Variable img : Image.
Variable m_Threshold : Q.
Variable su : Setup.

(** The loop condition [alphaCmin < alphaMax]. *)
Definition guard (st : Trav) : bool := Qltb (alphaCmin st) (alphaMax su).

(** The axis advanced by an iteration (lines 332, 339, 346). *)
Definition pick (st : Trav) : Axis :=
  if Qle_bool (alphaX st) (alphaY st) && Qle_bool (alphaX st) (alphaZ st) then AxX
  else if Qle_bool (alphaY st) (alphaX st) && Qle_bool (alphaY st) (alphaZ st) then AxY
  else AxZ.

(** Lines 332-352. *)
Definition advance (st : Trav) : Trav :=
  match pick st with
  | AxX => mkTrav (alphaX st + alphaUx su) (alphaY st) (alphaZ st)
             (alphaX st)
             (upd3 (cIndex st) AxX (c0 (cIndex st) + iU su)%Z)
             (d12 st)
  | AxY => mkTrav (alphaX st) (alphaY st + alphaUy su) (alphaZ st)
             (alphaY st)
             (upd3 (cIndex st) AxY (c1 (cIndex st) + jU su)%Z)
             (d12 st)
  | AxZ => mkTrav (alphaX st) (alphaY st) (alphaZ st + alphaUz su)
             (alphaZ st)
             (upd3 (cIndex st) AxZ (c2 (cIndex st) + kU su)%Z)
             (d12 st)
  end.

(** Lines 354-356. *)
Definition valid_index (i : Index) : bool :=
  (0 <=? c0 i)%Z && (c0 i <? c0 (sizeCT img))%Z &&
  (0 <=? c1 i)%Z && (c1 i <? c1 (sizeCT img))%Z &&
  (0 <=? c2 i)%Z && (c2 i <? c2 (sizeCT img))%Z.

(** Lines 354-364, with [alphaCminPrev] the value stored at line 330. *)
Definition accumulate (alphaCminPrev : Q) (st : Trav) : Trav :=
  if valid_index (cIndex st) then
    let value := GetPixel img (cIndex st) in
    if Qltb m_Threshold value then
      mkTrav (alphaX st) (alphaY st) (alphaZ st) (alphaCmin st) (cIndex st)
        (d12 st + (alphaCmin st - alphaCminPrev) * (value - m_Threshold))
    else st
  else st.

(** One execution of the loop body. *)
Definition body (st : Trav) : Trav :=
  let alphaCminPrev := alphaCmin st in
  accumulate alphaCminPrev (advance st).

Fixpoint while (fuel : nat) (st : Trav) : Result Trav :=
  if guard st then
    match fuel with
    | O => OutOfFuel
    | S fuel' => while fuel' (body st)
    end
  else Ok st.

(** The state at the loop head after [n] iterations, when the loop runs
    that long. *)
Fixpoint head_at (n : nat) (st : Trav) : option Trav :=
  match n with
  | O => Some st
  | S n' => if guard st then head_at n' (body st) else None
  end.

(** The smallest of the three running parametric values. *)
Definition min3 (st : Trav) : Q :=
  std_min (std_min (alphaX st) (alphaY st)) (alphaZ st).

End Loop.

(** ** The clamp to the output type (lines 367-379) *)

Section Clamp.

Variables minOutputValue maxOutputValue : Q.

Definition clamp (d12 : Q) : Q :=
  if Qltb d12 minOutputValue then minOutputValue
  else if Qltb maxOutputValue d12 then maxOutputValue
  else d12.

End Clamp.

(** The ray casting proper: everything in [Evaluate] after the two points
    have been mapped to world space. *)
Definition cast_ray (fuel : nat) (img : Image) (m_Threshold : Q)
    (minOutputValue maxOutputValue : Q)
    (SourceWorld drrPixelWorld : Point) : Result Q :=
  su <- setup img SourceWorld drrPixelWorld ;;
  st <- while img m_Threshold su fuel (entry su) ;;
  Ok (clamp minOutputValue maxOutputValue (d12 st)).

End Siddon.

(** ** Rigid transforms ([itk::Euler3DTransform], used through its interface)

    The transform classes belong to ITK; the part of their behaviour the
    interpolator relies on is a 3x3 matrix, an offset, a center and a
    translation, with [TransformPoint p = matrix * p + offset]. *)

Module Transform.

Definition Mat3 := Vec3 (Vec3 Q).

Definition vadd (a b : Vec3 Q) : Vec3 Q :=
  mkVec3 (c0 a + c0 b) (c1 a + c1 b) (c2 a + c2 b).
Definition vsub (a b : Vec3 Q) : Vec3 Q :=
  mkVec3 (c0 a - c0 b) (c1 a - c1 b) (c2 a - c2 b).
Definition vopp (a : Vec3 Q) : Vec3 Q := mkVec3 (- c0 a) (- c1 a) (- c2 a).
Definition dot (a b : Vec3 Q) : Q := c0 a * c0 b + c1 a * c1 b + c2 a * c2 b.
Definition vzero : Vec3 Q := mkVec3 0 0 0.

Definition col (m : Mat3) (k : Axis) : Vec3 Q :=
  mkVec3 (nth3 (c0 m) k) (nth3 (c1 m) k) (nth3 (c2 m) k).
Definition mat_vec (m : Mat3) (v : Vec3 Q) : Vec3 Q :=
  mkVec3 (dot (c0 m) v) (dot (c1 m) v) (dot (c2 m) v).
Definition row_mat (r : Vec3 Q) (m : Mat3) : Vec3 Q :=
  mkVec3 (dot r (col m AxX)) (dot r (col m AxY)) (dot r (col m AxZ)).
Definition mat_mul (a b : Mat3) : Mat3 :=
  mkVec3 (row_mat (c0 a) b) (row_mat (c1 a) b) (row_mat (c2 a) b).
Definition mat_id : Mat3 :=
  mkVec3 (mkVec3 1 0 0) (mkVec3 0 1 0) (mkVec3 0 0 1).

Definition det (m : Mat3) : Q :=
  c0 (c0 m) * (c1 (c1 m) * c2 (c2 m) - c2 (c1 m) * c1 (c2 m))
  - c1 (c0 m) * (c0 (c1 m) * c2 (c2 m) - c2 (c1 m) * c0 (c2 m))
  + c2 (c0 m) * (c0 (c1 m) * c1 (c2 m) - c1 (c1 m) * c0 (c2 m)).

Definition adjugate (m : Mat3) : Mat3 :=
  mkVec3
    (mkVec3 (c1 (c1 m) * c2 (c2 m) - c2 (c1 m) * c1 (c2 m))
            (c2 (c0 m) * c1 (c2 m) - c1 (c0 m) * c2 (c2 m))
            (c1 (c0 m) * c2 (c1 m) - c2 (c0 m) * c1 (c1 m)))
    (mkVec3 (c2 (c1 m) * c0 (c2 m) - c0 (c1 m) * c2 (c2 m))
            (c0 (c0 m) * c2 (c2 m) - c2 (c0 m) * c0 (c2 m))
            (c2 (c0 m) * c0 (c1 m) - c0 (c0 m) * c2 (c1 m)))
    (mkVec3 (c0 (c1 m) * c1 (c2 m) - c1 (c1 m) * c0 (c2 m))
            (c1 (c0 m) * c0 (c2 m) - c0 (c0 m) * c1 (c2 m))
            (c0 (c0 m) * c1 (c1 m) - c1 (c0 m) * c0 (c1 m))).

Definition vscale (s : Q) (v : Vec3 Q) : Vec3 Q :=
  mkVec3 (s * c0 v) (s * c1 v) (s * c2 v).
Definition mat_scale (s : Q) (m : Mat3) : Mat3 :=
  mkVec3 (vscale s (c0 m)) (vscale s (c1 m)) (vscale s (c2 m)).

(** The trigonometric functions of the C library. *)
Class Libm : Type := {
  cos_ : Q -> Q;
  sin_ : Q -> Q;
  atan_ : Q -> Q
}.

(** A transform object; [ptr] is its address and [mtime] its modification
    time ([GetMTime]). *)
Record t : Type := mk {
  ptr : N;
  matrix : Mat3;
  offset : Vec3 Q;
  center : Point;
  translation : Vec3 Q;
  mtime : N
}.

(** [TransformType::New()]: a new object, at address [p], is the identity. *)
Definition New (p : N) : t := mk p mat_id vzero vzero vzero 0%N.

Definition TransformPoint (tr : t) (p : Point) : Point :=
  vadd (mat_vec (matrix tr) p) (offset tr).

(** [ComputeOffset]: offset = translation + center - matrix * center. *)
Definition ComputeOffset (tr : t) : t :=
  mk (ptr tr) (matrix tr)
     (vsub (vadd (translation tr) (center tr)) (mat_vec (matrix tr) (center tr)))
     (center tr) (translation tr) (mtime tr).

(** [ComputeTranslation]: translation = offset - center + matrix * center. *)
Definition ComputeTranslation (tr : t) : t :=
  mk (ptr tr) (matrix tr) (offset tr) (center tr)
     (vadd (vsub (offset tr) (center tr)) (mat_vec (matrix tr) (center tr)))
     (mtime tr).

Definition SetIdentity (tr : t) : t :=
  mk (ptr tr) mat_id vzero vzero vzero (mtime tr).

Definition SetCenter (c : Point) (tr : t) : t :=
  ComputeOffset (mk (ptr tr) (matrix tr) (offset tr) c (translation tr) (mtime tr)).

Definition SetTranslation (v : Vec3 Q) (tr : t) : t :=
  ComputeOffset (mk (ptr tr) (matrix tr) (offset tr) (center tr) v (mtime tr)).

Section Rotation.
Context {libm : Libm}.

Definition RotationX (a : Q) : Mat3 :=
  mkVec3 (mkVec3 1 0 0) (mkVec3 0 (cos_ a) (- sin_ a)) (mkVec3 0 (sin_ a) (cos_ a)).
Definition RotationY (a : Q) : Mat3 :=
  mkVec3 (mkVec3 (cos_ a) 0 (sin_ a)) (mkVec3 0 1 0) (mkVec3 (- sin_ a) 0 (cos_ a)).
Definition RotationZ (a : Q) : Mat3 :=
  mkVec3 (mkVec3 (cos_ a) (- sin_ a) 0) (mkVec3 (sin_ a) (cos_ a) 0) (mkVec3 0 0 1).

(** [SetRotation(angleX, angleY, angleZ)] with [SetComputeZYX(true)]. *)
Definition SetRotation (ax ay az : Q) (tr : t) : t :=
  ComputeOffset
    (mk (ptr tr) (mat_mul (mat_mul (RotationZ az) (RotationY ay)) (RotationX ax))
        (offset tr) (center tr) (translation tr) (mtime tr)).

End Rotation.

(** [self->Compose(other, 0)]: [other] is applied after [self]. *)
Definition Compose (other : t) (self : t) : t :=
  ComputeTranslation
    (mk (ptr self) (mat_mul (matrix other) (matrix self))
        (vadd (mat_vec (matrix other) (offset self)) (offset other))
        (center self) (translation self) (mtime self)).

(** [self->GetInverse(inverse)]: fills the object [inverse]; a matrix of
    determinant zero raises. *)
Definition GetInverse (self : t) (inverse : t) : Result t :=
  if Qeq_bool (det (matrix self)) 0 then SingularMatrix
  else
    let inv := mat_scale (/ det (matrix self)) (adjugate (matrix self)) in
    Ok (ComputeTranslation
          (mk (ptr inverse) inv (vopp (mat_vec inv (offset self)))
              (center self) (translation inverse) (mtime inverse))).

End Transform.

(** ** The interpolator object *)

Module Interp.

Import Transform.

(** [itk::NumericTraits<OutputType>::NonpositiveMin()] and [::max()]. *)
Class OutputTraits : Type := {
  minOutputValue : Q;
  maxOutputValue : Q
}.

(** The object together with what it points to: the input image, the
    caller's pose object [m_Transform] and the global modification counter
    of ITK's time stamps ([clock]).  [MTime] is the interpolator's own
    modification time.  Only the modification times of the interpolator and
    of the pose object are ever read. *)
Record t : Type := mk {
  clock : N;
  MTime : N;
  image : Image;
  m_Transform : Transform.t;
  m_InverseTransform : Transform.t;
  m_Threshold : Q;
  m_FocalPointToIsocenterDistance : Q;
  m_ProjectionAngle : Q;
  m_GantryRotTransform : Transform.t;
  m_CamShiftTransform : Transform.t;
  m_CamRotTransform : Transform.t;
  m_ComposedTransform : Transform.t;
  m_SourcePoint : Point;
  m_SourceWorld : Point
}.

(** [this->Modified()]: the time stamp takes the next value of the counter. *)
Definition Modified (w : t) : t :=
  mk (clock w + 1) (clock w + 1) (image w) (m_Transform w) (m_InverseTransform w)
     (m_Threshold w) (m_FocalPointToIsocenterDistance w) (m_ProjectionAngle w)
     (m_GantryRotTransform w) (m_CamShiftTransform w) (m_CamRotTransform w)
     (m_ComposedTransform w) (m_SourcePoint w) (m_SourceWorld w).

(** *** Setters ([itkSetMacro], [itkSetObjectMacro]): store the argument and
    call [Modified()] when it differs from the stored value. *)

Definition SetTransform (arg : Transform.t) (w : t) : t :=
  if N.eqb (ptr (m_Transform w)) (ptr arg) then w
  else
    Modified
      (mk (clock w) (MTime w) (image w) arg (m_InverseTransform w)
          (m_Threshold w) (m_FocalPointToIsocenterDistance w) (m_ProjectionAngle w)
          (m_GantryRotTransform w) (m_CamShiftTransform w) (m_CamRotTransform w)
          (m_ComposedTransform w) (m_SourcePoint w) (m_SourceWorld w)).

Definition SetFocalPointToIsocenterDistance (arg : Q) (w : t) : t :=
  if Qeq_bool (m_FocalPointToIsocenterDistance w) arg then w
  else
    Modified
      (mk (clock w) (MTime w) (image w) (m_Transform w) (m_InverseTransform w)
          (m_Threshold w) arg (m_ProjectionAngle w)
          (m_GantryRotTransform w) (m_CamShiftTransform w) (m_CamRotTransform w)
          (m_ComposedTransform w) (m_SourcePoint w) (m_SourceWorld w)).

Definition SetProjectionAngle (arg : Q) (w : t) : t :=
  if Qeq_bool (m_ProjectionAngle w) arg then w
  else
    Modified
      (mk (clock w) (MTime w) (image w) (m_Transform w) (m_InverseTransform w)
          (m_Threshold w) (m_FocalPointToIsocenterDistance w) arg
          (m_GantryRotTransform w) (m_CamShiftTransform w) (m_CamRotTransform w)
          (m_ComposedTransform w) (m_SourcePoint w) (m_SourceWorld w)).

Definition SetThreshold (arg : Q) (w : t) : t :=
  if Qeq_bool (m_Threshold w) arg then w
  else
    Modified
      (mk (clock w) (MTime w) (image w) (m_Transform w) (m_InverseTransform w)
          arg (m_FocalPointToIsocenterDistance w) (m_ProjectionAngle w)
          (m_GantryRotTransform w) (m_CamShiftTransform w) (m_CamRotTransform w)
          (m_ComposedTransform w) (m_SourcePoint w) (m_SourceWorld w)).

(** The caller changes the pose object in place (for instance with
    [SetParameters]); the pose object's time stamp advances. *)
Definition PoseChanged (f : Transform.t -> Transform.t) (w : t) : t :=
  let p := f (m_Transform w) in
  mk (clock w + 1) (MTime w) (image w)
     (Transform.mk (ptr p) (matrix p) (offset p) (center p) (translation p) (clock w + 1))
     (m_InverseTransform w)
     (m_Threshold w) (m_FocalPointToIsocenterDistance w) (m_ProjectionAngle w)
     (m_GantryRotTransform w) (m_CamShiftTransform w) (m_CamRotTransform w)
     (m_ComposedTransform w) (m_SourcePoint w) (m_SourceWorld w).

Section Methods.

Context {libm : Libm} {out : OutputTraits}.

(** The constructor (lines 47-79); the image and the pose are connected by
    the caller before any other method runs and are taken here. *)
Definition dtr : Q := (atan_ 1 * 4) / 180.

Definition New (clock0 : N) (img : Image) (pose : Transform.t) (heap : N) : t :=
  mk clock0 clock0 img pose
     (Transform.New heap)
     0 (1000 # 1) 0
     (SetIdentity (Transform.New (heap + 2)))
     (SetIdentity (Transform.New (heap + 3)))
     (SetRotation (dtr * (-90 # 1)) 0 0 (SetIdentity (Transform.New (heap + 4))))
     (Transform.New (heap + 1))
     (mkVec3 0 0 0) (mkVec3 0 0 0).

(** The forward transform built by lines 399-423. *)
Definition gantry (w : t) : Transform.t :=
  SetCenter (center (m_Transform w))
    (SetRotation 0 0 (- m_ProjectionAngle w) (m_GantryRotTransform w)).

Definition focalpointtranslation (w : t) : Vec3 Q :=
  let isocenter := center (m_Transform w) in
  mkVec3 (- c0 isocenter)
         (m_FocalPointToIsocenterDistance w - c1 isocenter)
         (- c2 isocenter).

Definition camShift (w : t) : Transform.t :=
  SetTranslation (focalpointtranslation w) (m_CamShiftTransform w).

Definition composed (w : t) : Transform.t :=
  Compose (m_CamRotTransform w)
    (Compose (camShift w)
       (Compose (gantry w)
          (Compose (m_Transform w)
             (SetIdentity (m_ComposedTransform w))))).

(** Lines 395-429. *)
Definition ComputeInverseTransform (w : t) : Result t :=
  inv <- GetInverse (composed w) (m_InverseTransform w) ;;
  Ok (Modified
        (mk (clock w) (MTime w) (image w) (m_Transform w) inv
            (m_Threshold w) (m_FocalPointToIsocenterDistance w) (m_ProjectionAngle w)
            (gantry w) (camShift w) (m_CamRotTransform w)
            (composed w) (m_SourcePoint w) (m_SourceWorld w))).

(** Lines 432-438. *)
Definition Initialize (w : t) : Result t :=
  w1 <- ComputeInverseTransform w ;;
  Ok (mk (clock w1) (MTime w1) (image w1) (m_Transform w1) (m_InverseTransform w1)
         (m_Threshold w1) (m_FocalPointToIsocenterDistance w1) (m_ProjectionAngle w1)
         (m_GantryRotTransform w1) (m_CamShiftTransform w1) (m_CamRotTransform w1)
         (m_ComposedTransform w1) (m_SourcePoint w1)
         (TransformPoint (m_InverseTransform w1) (m_SourcePoint w1))).

(** Lines 124-127: the test that guards the recomputation. *)
Definition stale (w : t) : bool := (MTime w <? mtime (m_Transform w))%N.

(** Lines 124-136. *)
Definition refresh (w : t) : Result t :=
  if stale w then ComputeInverseTransform w else Ok w.

(** Line 138, in the state left by [refresh]. *)
Definition SourceWorld (w : t) : Point :=
  TransformPoint (m_InverseTransform w) (m_SourcePoint w).

(** [Evaluate] (lines 93-380); the object after the call is returned with
    the value, since the call may rebuild the cached transforms. *)
Definition Evaluate (fuel : nat) (w : t) (point : Point) : Result (t * Q) :=
  w1 <- refresh w ;;
  let drrPixelWorld := TransformPoint (m_InverseTransform w1) point in
  pixval <- Siddon.cast_ray fuel (image w1) (m_Threshold w1)
              minOutputValue maxOutputValue (SourceWorld w1) drrPixelWorld ;;
  Ok (w1, pixval).

End Methods.

End Interp.

(** * Properties *)

Import Siddon.

(** ** Scalar facts *)

Lemma Qltb_true (a b : Q) : Qltb a b = true <-> a < b.
Proof.
  unfold Qltb. rewrite negb_true_iff.
  destruct (Qle_bool b a) eqn:E.
  - apply Qle_bool_iff in E. split; [discriminate | intro H; exfalso; lra].
  - split; [intros _ | reflexivity].
    apply Qnot_le_lt. intro H. apply Qle_bool_iff in H. congruence.
Qed.

Lemma Qltb_false (a b : Q) : Qltb a b = false <-> b <= a.
Proof.
  destruct (Qltb a b) eqn:E.
  - apply Qltb_true in E. split; [discriminate | intro; exfalso; lra].
  - split; [intros _ | reflexivity].
    apply Qnot_lt_le. intro H. apply Qltb_true in H. congruence.
Qed.

Lemma Qeq_bool_false (a b : Q) : Qeq_bool a b = false <-> ~ a == b.
Proof.
  split.
  - intros E H. apply Qeq_bool_iff in H. congruence.
  - intro H. destruct (Qeq_bool a b) eqn:E; [|reflexivity].
    apply Qeq_bool_iff in E. contradiction.
Qed.

Lemma std_min_spec (a b : Q) :
  (std_min a b = a \/ std_min a b = b) /\ std_min a b <= a /\ std_min a b <= b.
Proof.
  unfold std_min. destruct (Qltb b a) eqn:E.
  - apply Qltb_true in E. repeat split; auto; lra.
  - apply Qltb_false in E. repeat split; auto; lra.
Qed.

Lemma std_max_spec (a b : Q) :
  (std_max a b = a \/ std_max a b = b) /\ a <= std_max a b /\ b <= std_max a b.
Proof.
  unfold std_max. destruct (Qltb a b) eqn:E.
  - apply Qltb_true in E. repeat split; auto; lra.
  - apply Qltb_false in E. repeat split; auto; lra.
Qed.

Lemma std_min_Qmin (a b : Q) : std_min a b == Qmin a b.
Proof.
  unfold std_min.
  destruct (Q.min_spec a b) as [[H E] | [H E]]; rewrite E;
    destruct (Qltb b a) eqn:L;
    try apply Qltb_true in L; try apply Qltb_false in L; lra.
Qed.

Lemma std_max_Qmax (a b : Q) : std_max a b == Qmax a b.
Proof.
  unfold std_max.
  destruct (Q.max_spec a b) as [[H E] | [H E]]; rewrite E;
    destruct (Qltb a b) eqn:L;
    try apply Qltb_true in L; try apply Qltb_false in L; lra.
Qed.

Lemma divide_nonzero (d : Divisor) (a b : Q) :
  Qeq_bool b 0 = false -> divide d a b = Ok (a / b).
Proof. unfold divide. intros ->. reflexivity. Qed.

Lemma abs_nonzero (x : Q) : Qeq_bool x 0 = false -> Qeq_bool (abs x) 0 = false.
Proof.
  rewrite !Qeq_bool_false. intros H E. apply H.
  revert E. unfold abs. apply Qabs_case; intros; lra.
Qed.

(** ** The set-up never divides by a zero ray component *)

Section SetupFacts.

Variable img : Image.
Variables S D : Point.

Let ray (k : Axis) : Q := nth3 (rayVector S D) k.

(** The per-axis values, with the divisions written as plain quotients. *)
Definition bounds (k : Axis) : Q * Q :=
  if Qeq_bool (ray k) 0 then (-2 # 1, 2 # 1)
  else
    let alpha1 := (0 - nth3 S k) / ray k in
    let alphaN :=
      (inject_Z (nth3 (sizeCT img) k) * nth3 (ctPixelSpacing img) k - nth3 S k) / ray k in
    (std_min alpha1 alphaN, std_max alpha1 alphaN).

Definition start (k : Axis) (indexUp indexDown : Z) : Q :=
  if Qeq_bool (ray k) 0 then 2 # 1
  else
    std_max ((inject_Z indexUp * nth3 (ctPixelSpacing img) k - nth3 S k) / ray k)
            ((inject_Z indexDown * nth3 (ctPixelSpacing img) k - nth3 S k) / ray k).

Definition increment (k : Axis) : Q :=
  if Qeq_bool (ray k) 0 then 999 # 1
  else nth3 (ctPixelSpacing img) k / abs (ray k).

Lemma slab_total (k : Axis) : slab img S D k = Ok (bounds k).
Proof.
  unfold slab, bounds, Qneqb, ray.
  destruct (Qeq_bool (nth3 (rayVector S D) k) 0) eqn:E; simpl; [reflexivity|].
  rewrite !divide_nonzero by exact E. reflexivity.
Qed.

Lemma alpha_start_total (k : Axis) (up down : Z) :
  alpha_start img S D k up down = Ok (start k up down).
Proof.
  unfold alpha_start, start, ray.
  destruct (Qeq_bool (nth3 (rayVector S D) k) 0) eqn:E; [reflexivity|].
  rewrite !divide_nonzero by exact E. reflexivity.
Qed.

Lemma alphaU_total (k : Axis) : alphaU img S D k = Ok (increment k).
Proof.
  unfold alphaU, increment, Qneqb, ray.
  destruct (Qeq_bool (nth3 (rayVector S D) k) 0) eqn:E; simpl; [reflexivity|].
  apply divide_nonzero, abs_nonzero, E.
Qed.

(** What [setup] returns, given the three continuous indices. *)
Definition setup_of (fx fy fz : Q) : Setup :=
  let aX := start AxX (ceil fx) (floor fx) in
  let aY := start AxY (ceil fy) (floor fy) in
  let aZ := start AxZ (ceil fz) (floor fz) in
  mkSetup (alphaMin_of (bounds AxX) (bounds AxY) (bounds AxZ))
          (alphaMax_of (bounds AxX) (bounds AxY) (bounds AxZ))
          (increment AxX) (increment AxY) (increment AxZ)
          (indexU S D AxX) (indexU S D AxY) (indexU S D AxZ)
          (mkTrav aX aY aZ (std_min (std_min aX aY) aZ)
                  (mkVec3 (floor fx) (floor fy) (floor fz)) 0).

Lemma setup_unfold :
  setup img S D =
  (fx <- firstIntersectionIndex img S D
           (alphaMin_of (bounds AxX) (bounds AxY) (bounds AxZ)) AxX ;;
   fy <- firstIntersectionIndex img S D
           (alphaMin_of (bounds AxX) (bounds AxY) (bounds AxZ)) AxY ;;
   fz <- firstIntersectionIndex img S D
           (alphaMin_of (bounds AxX) (bounds AxY) (bounds AxZ)) AxZ ;;
   Ok (setup_of fx fy fz)).
Proof.
  unfold setup. rewrite !slab_total. cbn [bind].
  destruct (firstIntersectionIndex _ _ _ _ AxX) as [fx| | |]; cbn [bind]; try reflexivity.
  destruct (firstIntersectionIndex _ _ _ _ AxY) as [fy| | |]; cbn [bind]; try reflexivity.
  destruct (firstIntersectionIndex _ _ _ _ AxZ) as [fz| | |]; cbn [bind]; try reflexivity.
  rewrite !alpha_start_total. cbn [bind]. rewrite !alphaU_total. reflexivity.
Qed.

Lemma firstIntersectionIndex_cases (a : Q) (k : Axis) :
  (Qeq_bool (nth3 (ctPixelSpacing img) k) 0 = true /\
   firstIntersectionIndex img S D a k = DivisionByZero (PixelSpacing k)) \/
  (Qeq_bool (nth3 (ctPixelSpacing img) k) 0 = false /\
   firstIntersectionIndex img S D a k =
     Ok (firstIntersection S D a k / nth3 (ctPixelSpacing img) k)).
Proof.
  unfold firstIntersectionIndex, divide.
  destruct (Qeq_bool (nth3 (ctPixelSpacing img) k) 0); [left|right]; split; reflexivity.
Qed.

Lemma setup_Ok_inv (su : Setup) :
  setup img S D = Ok su ->
  exists fx fy fz,
    firstIntersectionIndex img S D (alphaMin su) AxX = Ok fx /\
    firstIntersectionIndex img S D (alphaMin su) AxY = Ok fy /\
    firstIntersectionIndex img S D (alphaMin su) AxZ = Ok fz /\
    su = setup_of fx fy fz.
Proof.
  rewrite setup_unfold.
  destruct (firstIntersectionIndex _ _ _ _ AxX) as [fx| | |] eqn:Ex; cbn [bind]; try discriminate.
  destruct (firstIntersectionIndex _ _ _ _ AxY) as [fy| | |] eqn:Ey; cbn [bind]; try discriminate.
  destruct (firstIntersectionIndex _ _ _ _ AxZ) as [fz| | |] eqn:Ez; cbn [bind]; try discriminate.
  intros [= <-]. exists fx, fy, fz. cbn [alphaMin setup_of]. auto.
Qed.

Lemma setup_spacing_nonzero :
  (forall k, ~ nth3 (ctPixelSpacing img) k == 0) ->
  exists fx fy fz, setup img S D = Ok (setup_of fx fy fz).
Proof.
  intro H. rewrite setup_unfold.
  pose proof (fun k => proj2 (Qeq_bool_false _ _) (H k)) as Hb.
  destruct (firstIntersectionIndex_cases (alphaMin_of (bounds AxX) (bounds AxY) (bounds AxZ)) AxX)
    as [[E _]|[_ ->]]; [rewrite Hb in E; discriminate|].
  destruct (firstIntersectionIndex_cases (alphaMin_of (bounds AxX) (bounds AxY) (bounds AxZ)) AxY)
    as [[E _]|[_ ->]]; [rewrite Hb in E; discriminate|].
  destruct (firstIntersectionIndex_cases (alphaMin_of (bounds AxX) (bounds AxY) (bounds AxZ)) AxZ)
    as [[E _]|[_ ->]]; [rewrite Hb in E; discriminate|].
  cbn [bind]. eauto.
Qed.

Lemma setup_never_ray_division (k : Axis) :
  setup img S D <> DivisionByZero (RayComponent k).
Proof.
  rewrite setup_unfold.
  destruct (firstIntersectionIndex_cases (alphaMin_of (bounds AxX) (bounds AxY) (bounds AxZ)) AxX)
    as [[_ ->]|[_ ->]]; cbn [bind]; [discriminate|].
  destruct (firstIntersectionIndex_cases (alphaMin_of (bounds AxX) (bounds AxY) (bounds AxZ)) AxY)
    as [[_ ->]|[_ ->]]; cbn [bind]; [discriminate|].
  destruct (firstIntersectionIndex_cases (alphaMin_of (bounds AxX) (bounds AxY) (bounds AxZ)) AxZ)
    as [[_ ->]|[_ ->]]; cbn [bind]; discriminate.
Qed.

End SetupFacts.

(** ** The traversal loop *)

Section LoopFacts.

Variable img : Image.
Variable thr : Q.
Variable su : Setup.

Definition alpha_of (st : Trav) (k : Axis) : Q :=
  match k with AxX => alphaX st | AxY => alphaY st | AxZ => alphaZ st end.
Definition alphaU_of (k : Axis) : Q :=
  match k with AxX => alphaUx su | AxY => alphaUy su | AxZ => alphaUz su end.
Definition indexU_of (k : Axis) : Z :=
  match k with AxX => iU su | AxY => jU su | AxZ => kU su end.

Lemma accumulate_alpha (prev : Q) (st : Trav) :
  alphaX (accumulate img thr prev st) = alphaX st /\
  alphaY (accumulate img thr prev st) = alphaY st /\
  alphaZ (accumulate img thr prev st) = alphaZ st /\
  alphaCmin (accumulate img thr prev st) = alphaCmin st /\
  cIndex (accumulate img thr prev st) = cIndex st.
Proof.
  unfold accumulate.
  destruct (valid_index img (cIndex st)); [|tauto].
  destruct (Qltb thr (GetPixel img (cIndex st))); cbn; tauto.
Qed.

Lemma pick_least (st : Trav) :
  alpha_of st (pick st) <= alphaX st /\
  alpha_of st (pick st) <= alphaY st /\
  alpha_of st (pick st) <= alphaZ st.
Proof.
  unfold pick.
  destruct (Qle_bool (alphaX st) (alphaY st)) eqn:Exy;
  destruct (Qle_bool (alphaX st) (alphaZ st)) eqn:Exz;
  destruct (Qle_bool (alphaY st) (alphaX st)) eqn:Eyx;
  destruct (Qle_bool (alphaY st) (alphaZ st)) eqn:Eyz; cbn;
  repeat match goal with
  | H : Qle_bool _ _ = true |- _ => apply Qle_bool_iff in H
  | H : Qle_bool ?a ?b = false |- _ =>
      assert (b < a) by (apply Qnot_le_lt; intro C; apply Qle_bool_iff in C; congruence);
      clear H
  end; repeat split; lra.
Qed.

Lemma min3_least (st : Trav) :
  min3 st <= alphaX st /\ min3 st <= alphaY st /\ min3 st <= alphaZ st /\
  (min3 st = alphaX st \/ min3 st = alphaY st \/ min3 st = alphaZ st).
Proof.
  unfold min3.
  destruct (std_min_spec (std_min (alphaX st) (alphaY st)) (alphaZ st)) as (Hc & H1 & H2).
  destruct (std_min_spec (alphaX st) (alphaY st)) as (Hc' & H3 & H4).
  repeat split; try lra.
  destruct Hc as [E | E]; rewrite E; [|tauto].
  destruct Hc' as [E' | E']; rewrite E'; tauto.
Qed.

Lemma pick_min3 (st : Trav) : alpha_of st (pick st) == min3 st.
Proof.
  destruct (pick_least st) as (Hx & Hy & Hz).
  destruct (min3_least st) as (Mx & My & Mz & Mc).
  apply Qle_antisym.
  - destruct Mc as [E | [E | E]]; rewrite E; assumption.
  - destruct (pick st); cbn; assumption.
Qed.

Lemma advance_alphaCmin (st : Trav) :
  alphaCmin (advance su st) = alpha_of st (pick st).
Proof. unfold advance. destruct (pick st); reflexivity. Qed.

Lemma advance_alpha (st : Trav) (k : Axis) :
  alpha_of (advance su st) k =
  if match k, pick st with AxX, AxX | AxY, AxY | AxZ, AxZ => true | _, _ => false end
  then alpha_of st k + alphaU_of k else alpha_of st k.
Proof. unfold advance. destruct (pick st), k; reflexivity. Qed.

Lemma body_alphaCmin (st : Trav) :
  alphaCmin (body img thr su st) = alpha_of st (pick st).
Proof.
  unfold body.
  destruct (accumulate_alpha (alphaCmin st) (advance su st)) as (_ & _ & _ & -> & _).
  apply advance_alphaCmin.
Qed.

Lemma body_alpha (st : Trav) (k : Axis) :
  alpha_of (body img thr su st) k = alpha_of (advance su st) k.
Proof.
  unfold body.
  destruct (accumulate_alpha (alphaCmin st) (advance su st)) as (Hx & Hy & Hz & _).
  destruct k; cbn; assumption.
Qed.

Lemma while_exit (fuel : nat) (st : Trav) :
  guard su st = false -> while img thr su fuel st = Ok st.
Proof. intro H. destruct fuel; cbn; rewrite H; reflexivity. Qed.

Lemma while_step (fuel : nat) (st : Trav) :
  guard su st = true ->
  while img thr su (S fuel) st = while img thr su fuel (body img thr su st).
Proof. intro H. cbn. rewrite H. reflexivity. Qed.

End LoopFacts.

(** ** Termination of the loop *)

Section Termination.

Variable img : Image.
Variable thr : Q.
Variable su : Setup.

(** Number of increments of axis [k] that keep its running value below
    [alphaMax]. *)
Definition rem (st : Trav) (k : Axis) : nat :=
  Z.to_nat (Qceiling ((alphaMax su - alpha_of st k) / alphaU_of su k)).

Definition measure (st : Trav) : nat := (rem st AxX + rem st AxY + rem st AxZ)%nat.

(** An iteration budget that suffices from [st]. *)
Definition budget (st : Trav) : nat := S (measure st).

Lemma Qceiling_pred (x : Q) : (Qceiling (x - 1) <= Qceiling x - 1)%Z.
Proof.
  rewrite <- (Qceiling_Z (Qceiling x - 1)).
  apply Qceiling_resp_le.
  unfold Z.sub. rewrite inject_Z_plus. cbn [inject_Z Z.opp].
  pose proof (Qle_ceiling x). change (inject_Z (-1)) with (-1 # 1). lra.
Qed.

Lemma Qceiling_pos (x : Q) : 0 < x -> (1 <= Qceiling x)%Z.
Proof.
  intro H. pose proof (Qle_ceiling x) as L.
  assert (0 < inject_Z (Qceiling x)) as P by lra.
  change 0 with (inject_Z 0) in P. rewrite <- Zlt_Qlt in P. lia.
Qed.

Lemma rem_decreases (a u : Q) :
  0 < u -> a < alphaMax su ->
  (Z.to_nat (Qceiling ((alphaMax su - (a + u)) / u)) <
   Z.to_nat (Qceiling ((alphaMax su - a) / u)))%nat.
Proof.
  intros Hu Ha.
  assert ((alphaMax su - (a + u)) / u == (alphaMax su - a) / u - 1) as E
    by (field; lra).
  rewrite E.
  assert (0 < (alphaMax su - a) / u) as P.
  { apply Qlt_shift_div_l; lra. }
  pose proof (Qceiling_pos _ P). pose proof (Qceiling_pred ((alphaMax su - a) / u)).
  lia.
Qed.

Hypothesis increments_positive : forall k, 0 < alphaU_of su k.

Lemma measure_decreases (st : Trav) :
  alpha_of st (pick st) < alphaMax su ->
  (measure (body img thr su st) < measure st)%nat.
Proof.
  intro H. unfold measure, rem.
  rewrite !body_alpha, !advance_alpha.
  destruct (pick st) eqn:P; cbn [alpha_of alphaU_of] in *.
  - pose proof (rem_decreases (alphaX st) (alphaUx su) (increments_positive AxX) H). lia.
  - pose proof (rem_decreases (alphaY st) (alphaUy su) (increments_positive AxY) H). lia.
  - pose proof (rem_decreases (alphaZ st) (alphaUz su) (increments_positive AxZ) H). lia.
Qed.

Lemma last_iteration (st : Trav) :
  alphaMax su <= alpha_of st (pick st) -> guard su (body img thr su st) = false.
Proof.
  intro H. unfold guard. rewrite body_alphaCmin. apply Qltb_false, H.
Qed.

Lemma while_terminates_gen (n : nat) :
  forall st, (measure st <= n)%nat ->
  exists st', guard su st' = false /\
    forall fuel, (S n <= fuel)%nat -> while img thr su fuel st = Ok st'.
Proof.
  induction n as [|n IH]; intros st Hm.
  - destruct (guard su st) eqn:G.
    + destruct (Qlt_le_dec (alpha_of st (pick st)) (alphaMax su)) as [L|L].
      * pose proof (measure_decreases st L). lia.
      * exists (body img thr su st). split; [apply last_iteration, L|].
        intros [|fuel] Hf; [lia|]. rewrite while_step by exact G.
        apply while_exit, last_iteration, L.
    + exists st. split; [exact G|]. intros fuel _. apply while_exit, G.
  - destruct (guard su st) eqn:G.
    + destruct (Qlt_le_dec (alpha_of st (pick st)) (alphaMax su)) as [L|L].
      * pose proof (measure_decreases st L) as Hd.
        destruct (IH (body img thr su st)) as (st' & G' & W); [lia|].
        exists st'. split; [exact G'|].
        intros [|fuel] Hf; [lia|]. rewrite while_step by exact G.
        apply W. lia.
      * exists (body img thr su st). split; [apply last_iteration, L|].
        intros [|fuel] Hf; [lia|]. rewrite while_step by exact G.
        apply while_exit, last_iteration, L.
    + exists st. split; [exact G|]. intros fuel _. apply while_exit, G.
Qed.

Lemma while_terminates (st : Trav) :
  exists st', guard su st' = false /\
    forall fuel, (budget st <= fuel)%nat -> while img thr su fuel st = Ok st'.
Proof. apply (while_terminates_gen (measure st)). lia. Qed.

End Termination.

(** ** The entry state *)

Section EntryFacts.

Variable img : Image.
Variables S D : Point.

Lemma increment_positive (k : Axis) :
  0 < nth3 (ctPixelSpacing img) k -> 0 < increment img S D k.
Proof.
  intro H. unfold increment.
  destruct (Qeq_bool (nth3 (rayVector S D) k) 0) eqn:E; [reflexivity|].
  apply Qlt_shift_div_l; [|lra].
  apply Qeq_bool_false in E. unfold abs.
  pose proof (Qabs_nonneg (nth3 (rayVector S D) k)) as N.
  apply Qle_lteq in N. destruct N as [N|N]; [exact N|].
  exfalso. apply E. symmetry in N. revert N. apply Qabs_case; intros; lra.
Qed.

Lemma quotient_lower_bound (a b r : Q) :
  (0 < r -> a * r <= b) -> (r < 0 -> b <= a * r) -> ~ r == 0 -> a <= b / r.
Proof.
  intros Hp Hn Hr.
  destruct (Q_dec r 0) as [[L|G]|E]; [| |contradiction].
  - assert (b / r == (- b) / (- r)) as -> by (field; exact Hr).
    apply Qle_shift_div_l; [lra|]. specialize (Hn L). lra.
  - apply Qle_shift_div_l; [lra|]. apply Hp, G.
Qed.

(** The running value of an axis the ray moves along starts at or after the
    entry parameter, whatever the signs of the spacing and of the ray. *)
Lemma start_lower_bound (k : Axis) (a : Q) :
  ~ nth3 (ctPixelSpacing img) k == 0 ->
  ~ nth3 (rayVector S D) k == 0 ->
  let f := firstIntersection S D a k / nth3 (ctPixelSpacing img) k in
  a <= start img S D k (ceil f) (floor f).
Proof.
  intros Hsp Hray f. unfold start.
  rewrite (proj2 (Qeq_bool_false _ _) Hray).
  set (sp := nth3 (ctPixelSpacing img) k) in *.
  set (r := nth3 (rayVector S D) k) in *.
  set (s := nth3 S k).
  assert (f * sp == s + a * r) as Hf.
  { unfold f, firstIntersection. fold r. fold s. field. exact Hsp. }
  pose proof (Qle_ceiling f) as Hc. pose proof (Qfloor_le f) as Hfl.
  unfold ceil, floor.
  set (c := inject_Z (Qceiling f)) in *. set (fl := inject_Z (Qfloor f)) in *.
  match goal with |- _ <= std_max ?u ?d =>
    destruct (std_max_spec u d) as (_ & Hu & Hd)
  end.
  destruct (Q_dec sp 0) as [[Ls|Gs]|Es]; [| |contradiction].
  - (* negative spacing *)
    assert (c * sp <= f * sp) by nra. assert (f * sp <= fl * sp) by nra.
    destruct (Q_dec r 0) as [[Lr|Gr]|Er]; [| |contradiction].
    + eapply Qle_trans; [|exact Hu].
      apply quotient_lower_bound; [intros; lra | intros; lra | exact Hray].
    + eapply Qle_trans; [|exact Hd].
      apply quotient_lower_bound; [intros; lra | intros; lra | exact Hray].
  - (* positive spacing *)
    assert (f * sp <= c * sp) by nra. assert (fl * sp <= f * sp) by nra.
    destruct (Q_dec r 0) as [[Lr|Gr]|Er]; [| |contradiction].
    + eapply Qle_trans; [|exact Hd].
      apply quotient_lower_bound; [intros; lra | intros; lra | exact Hray].
    + eapply Qle_trans; [|exact Hu].
      apply quotient_lower_bound; [intros; lra | intros; lra | exact Hray].
Qed.

Lemma alphaMax_of_le (x y z : Q * Q) :
  alphaMax_of x y z <= snd x /\ alphaMax_of x y z <= snd y /\ alphaMax_of x y z <= snd z.
Proof.
  unfold alphaMax_of.
  destruct (std_min_spec (std_min (snd x) (snd y)) (snd z)) as (_ & H1 & H2).
  destruct (std_min_spec (snd x) (snd y)) as (_ & H3 & H4).
  repeat split; lra.
Qed.

Lemma bounds_parallel (k : Axis) :
  nth3 (rayVector S D) k == 0 -> bounds img S D k = (-2 # 1, 2 # 1).
Proof.
  intro H. unfold bounds. apply Qeq_bool_iff in H. rewrite H. reflexivity.
Qed.

Lemma start_parallel (k : Axis) (up down : Z) :
  nth3 (rayVector S D) k == 0 -> start img S D k up down = 2 # 1.
Proof.
  intro H. unfold start. apply Qeq_bool_iff in H. rewrite H. reflexivity.
Qed.

(** With an empty parametric range the loop condition is false on entry. *)
Lemma empty_range_entry (su : Setup) :
  setup img S D = Ok su -> alphaMax su <= alphaMin su ->
  guard su (entry su) = false.
Proof.
  intros Hs He.
  destruct (setup_Ok_inv _ _ _ _ Hs) as (fx & fy & fz & Hx & Hy & Hz & E).
  assert (forall k f, firstIntersectionIndex img S D (alphaMin su) k = Ok f ->
            alphaMax su <= start img S D k (ceil f) (floor f)) as Hk.
  { intros k f Hf.
    destruct (firstIntersectionIndex_cases img S D (alphaMin su) k) as [[_ C]|[Hsp C]];
      rewrite C in Hf; [discriminate|]. injection Hf as <-.
    apply Qeq_bool_false in Hsp.
    destruct (Qeq_dec (nth3 (rayVector S D) k) 0) as [Z|NZ].
    - rewrite start_parallel by exact Z.
      destruct (alphaMax_of_le (bounds img S D AxX) (bounds img S D AxY) (bounds img S D AxZ))
        as (Bx & By & Bz).
      pose proof (bounds_parallel k Z) as B.
      replace (alphaMax su) with
        (alphaMax_of (bounds img S D AxX) (bounds img S D AxY) (bounds img S D AxZ))
        by (rewrite E; reflexivity).
      destruct k; rewrite B in *; cbn [snd] in *; assumption.
    - eapply Qle_trans; [exact He|]. apply start_lower_bound; assumption. }
  pose proof (Hk AxX fx Hx) as Kx. pose proof (Hk AxY fy Hy) as Ky.
  pose proof (Hk AxZ fz Hz) as Kz.
  unfold guard. apply Qltb_false.
  rewrite E at 2. cbn [entry setup_of alphaCmin].
  match goal with |- _ <= std_min (std_min ?x ?y) ?z =>
    destruct (std_min_spec (std_min x y) z) as ([-> | ->] & _);
    [destruct (std_min_spec x y) as ([-> | ->] & _)|]
  end; assumption.
Qed.

End EntryFacts.

(** ** Transform algebra *)

Module TransformFacts.

Import Transform.

(** Points are compared coordinate by coordinate, as rationals. *)
Definition veq (a b : Vec3 Q) : Prop :=
  c0 a == c0 b /\ c1 a == c1 b /\ c2 a == c2 b.

Infix "=v=" := veq (at level 70, no associativity).

Lemma veq_refl (a : Vec3 Q) : a =v= a.
Proof. repeat split; reflexivity. Qed.

Lemma veq_sym (a b : Vec3 Q) : a =v= b -> b =v= a.
Proof. intros (H0 & H1 & H2). repeat split; symmetry; assumption. Qed.

Lemma veq_trans (a b c : Vec3 Q) : a =v= b -> b =v= c -> a =v= c.
Proof.
  intros (H0 & H1 & H2) (K0 & K1 & K2).
  repeat split; etransitivity; eassumption.
Qed.

Lemma TransformPoint_veq (tr : t) (p q : Point) :
  p =v= q -> TransformPoint tr p =v= TransformPoint tr q.
Proof.
  intros (H0 & H1 & H2). unfold TransformPoint, veq, vadd, mat_vec, dot.
  cbn [c0 c1 c2]. rewrite H0, H1, H2. repeat split; reflexivity.
Qed.

Ltac crush_vec :=
  unfold veq, TransformPoint, mat_scale, mat_mul, row_mat, col, mat_vec, dot,
         vadd, vsub, vopp, vscale, vzero, mat_id;
  cbn [c0 c1 c2 nth3 matrix offset center translation ptr mtime].

(** [Compose] applies [other] after [self]. *)
Lemma Compose_apply (other self : t) (p : Point) :
  TransformPoint (Compose other self) p =v=
  TransformPoint other (TransformPoint self p).
Proof.
  unfold TransformPoint, Compose, ComputeTranslation. cbn [matrix offset].
  crush_vec. repeat split; ring.
Qed.

Lemma SetIdentity_apply (tr : t) (p : Point) :
  TransformPoint (SetIdentity tr) p =v= p.
Proof. unfold SetIdentity. crush_vec. repeat split; ring. Qed.

(** A transform with matrix [m], center [c] and translation [v] maps [p] to
    [m (p - c) + c + v]. *)
Lemma ComputeOffset_apply (tr : t) (p : Point) :
  TransformPoint (ComputeOffset tr) p =v=
  vadd (vadd (mat_vec (matrix tr) (vsub p (center tr))) (center tr)) (translation tr).
Proof. unfold ComputeOffset. crush_vec. repeat split; ring. Qed.

(** What [GetInverse] stores is the inverse mapping. *)
Lemma adjugate_left (m : Mat3) (p : Vec3 Q) :
  mat_vec (adjugate m) (mat_vec m p) =v= vscale (det m) p.
Proof. unfold adjugate, det. crush_vec. repeat split; ring. Qed.

Lemma adjugate_right (m : Mat3) (p : Vec3 Q) :
  mat_vec m (mat_vec (adjugate m) p) =v= vscale (det m) p.
Proof. unfold adjugate, det. crush_vec. repeat split; ring. Qed.

Lemma GetInverse_Ok (self inverse inv : t) :
  GetInverse self inverse = Ok inv ->
  ~ det (matrix self) == 0 /\
  matrix inv = mat_scale (/ det (matrix self)) (adjugate (matrix self)) /\
  offset inv = vopp (mat_vec (matrix inv) (offset self)) /\
  ptr inv = ptr inverse /\ mtime inv = mtime inverse /\ center inv = center self.
Proof.
  unfold GetInverse.
  destruct (Qeq_bool (det (matrix self)) 0) eqn:E; [discriminate|].
  intros [= <-]. apply Qeq_bool_false in E. cbn. repeat split; try reflexivity; exact E.
Qed.

Lemma GetInverse_left (self inverse inv : t) (p : Point) :
  GetInverse self inverse = Ok inv ->
  TransformPoint inv (TransformPoint self p) =v= p.
Proof.
  intro H. destruct (GetInverse_Ok _ _ _ H) as (Hd & Hm & Ho & _).
  pose proof (adjugate_left (matrix self) p) as (A0 & A1 & A2).
  unfold TransformPoint. rewrite Ho, Hm.
  revert A0 A1 A2. generalize (adjugate (matrix self)). intros a.
  crush_vec. intros A0 A1 A2.
  repeat split.
  - apply (Qmult_inj_l _ _ (det (matrix self)) Hd). rewrite <- A0. field. exact Hd.
  - apply (Qmult_inj_l _ _ (det (matrix self)) Hd). rewrite <- A1. field. exact Hd.
  - apply (Qmult_inj_l _ _ (det (matrix self)) Hd). rewrite <- A2. field. exact Hd.
Qed.

Lemma GetInverse_right (self inverse inv : t) (p : Point) :
  GetInverse self inverse = Ok inv ->
  TransformPoint self (TransformPoint inv p) =v= p.
Proof.
  intro H. destruct (GetInverse_Ok _ _ _ H) as (Hd & Hm & Ho & _).
  pose proof (adjugate_right (matrix self) (vsub p (offset self))) as (A0 & A1 & A2).
  unfold TransformPoint. rewrite Ho, Hm.
  revert A0 A1 A2. generalize (adjugate (matrix self)). intros a.
  crush_vec. intros A0 A1 A2.
  repeat split; apply (Qmult_inj_l _ _ (det (matrix self)) Hd).
  - match type of A0 with ?l == _ =>
      transitivity (l + det (matrix self) * c0 (offset self)) end;
      [field; exact Hd | rewrite A0; ring].
  - match type of A1 with ?l == _ =>
      transitivity (l + det (matrix self) * c1 (offset self)) end;
      [field; exact Hd | rewrite A1; ring].
  - match type of A2 with ?l == _ =>
      transitivity (l + det (matrix self) * c2 (offset self)) end;
      [field; exact Hd | rewrite A2; ring].
Qed.

End TransformFacts.

(** ** The cached geometry *)

Module InterpFacts.

Import Transform Interp TransformFacts.

(** The value returned by a call, without the object. *)
Definition value (r : Result (Interp.t * Q)) : Result Q :=
  x <- r ;; Ok (snd x).

Section Cache.

Context {libm : Libm} {out : OutputTraits}.

(** The cached transforms are those [ComputeInverseTransform] derives from
    the present configuration. *)
Definition cache_built (w : Interp.t) : Prop :=
  GetInverse (composed w) (m_InverseTransform w) = Ok (m_InverseTransform w) /\
  composed w = m_ComposedTransform w /\
  gantry w = m_GantryRotTransform w /\
  camShift w = m_CamShiftTransform w.

(** Time stamps are drawn from the global counter. *)
Definition clock_ok (w : Interp.t) : Prop :=
  (MTime w <= clock w)%N /\ (mtime (m_Transform w) <= clock w)%N.

Lemma GetInverse_again (self inverse inv : Transform.t) :
  GetInverse self inverse = Ok inv -> GetInverse self inv = Ok inv.
Proof.
  unfold GetInverse.
  destruct (Qeq_bool (det (matrix self)) 0); [discriminate|].
  intros [= <-]. reflexivity.
Qed.

Lemma ComputeInverseTransform_Ok (w w1 : Interp.t) :
  ComputeInverseTransform w = Ok w1 ->
  exists inv,
    GetInverse (composed w) (m_InverseTransform w) = Ok inv /\
    w1 = Interp.mk (clock w + 1) (clock w + 1) (image w) (m_Transform w) inv
           (m_Threshold w) (m_FocalPointToIsocenterDistance w) (m_ProjectionAngle w)
           (gantry w) (camShift w) (m_CamRotTransform w)
           (composed w) (m_SourcePoint w) (m_SourceWorld w).
Proof.
  unfold ComputeInverseTransform.
  destruct (GetInverse (composed w) (m_InverseTransform w)) as [inv| | |] eqn:E;
    cbn [bind]; try discriminate.
  intros [= <-]. exists inv. split; reflexivity.
Qed.

(** The three derived transforms as functions of what they are built from. *)
Definition gantry_of (c : Point) (angle : Q) (g : Transform.t) : Transform.t :=
  SetCenter c (SetRotation 0 0 (- angle) g).

Definition camShift_of (c : Point) (distance : Q) (s : Transform.t) : Transform.t :=
  SetTranslation (mkVec3 (- c0 c) (distance - c1 c) (- c2 c)) s.

Definition composed_of (pose g s cam cmp : Transform.t) : Transform.t :=
  Compose cam (Compose s (Compose g (Compose pose (SetIdentity cmp)))).

Lemma gantry_eq (w : Interp.t) :
  gantry w = gantry_of (center (m_Transform w)) (m_ProjectionAngle w)
               (m_GantryRotTransform w).
Proof. reflexivity. Qed.

Lemma camShift_eq (w : Interp.t) :
  camShift w = camShift_of (center (m_Transform w)) (m_FocalPointToIsocenterDistance w)
                 (m_CamShiftTransform w).
Proof. reflexivity. Qed.

Lemma composed_eq (w : Interp.t) :
  composed w = composed_of (m_Transform w) (gantry w) (camShift w)
                 (m_CamRotTransform w) (m_ComposedTransform w).
Proof. reflexivity. Qed.

Lemma SetCenter_fields (c : Point) (tr : Transform.t) :
  SetCenter c tr =
  Transform.mk (ptr tr) (matrix tr)
    (vsub (vadd (translation tr) c) (mat_vec (matrix tr) c))
    c (translation tr) (mtime tr).
Proof. reflexivity. Qed.

Lemma SetRotation_fields (ax ay az : Q) (tr : Transform.t) :
  SetRotation ax ay az tr =
  let R := mat_mul (mat_mul (RotationZ az) (RotationY ay)) (RotationX ax) in
  Transform.mk (ptr tr) R
    (vsub (vadd (translation tr) (center tr)) (mat_vec R (center tr)))
    (center tr) (translation tr) (mtime tr).
Proof. reflexivity. Qed.

Lemma gantry_of_fields (c : Point) (angle : Q) (g : Transform.t) :
  gantry_of c angle g =
  let R := mat_mul (mat_mul (RotationZ (- angle)) (RotationY 0)) (RotationX 0) in
  Transform.mk (ptr g) R (vsub (vadd (translation g) c) (mat_vec R c))
    c (translation g) (mtime g).
Proof.
  unfold gantry_of. rewrite SetRotation_fields. cbv zeta.
  rewrite SetCenter_fields. cbn [ptr matrix offset center translation mtime].
  reflexivity.
Qed.

Lemma gantry_of_again (c : Point) (angle : Q) (g : Transform.t) :
  gantry_of c angle (gantry_of c angle g) = gantry_of c angle g.
Proof.
  rewrite (gantry_of_fields c angle (gantry_of c angle g)).
  rewrite (gantry_of_fields c angle g). cbv zeta.
  cbn [ptr matrix offset center translation mtime]. reflexivity.
Qed.

Lemma camShift_of_again (c : Point) (d : Q) (s : Transform.t) :
  camShift_of c d (camShift_of c d s) = camShift_of c d s.
Proof.
  unfold camShift_of, SetTranslation, ComputeOffset.
  cbn [ptr matrix offset center translation mtime]. reflexivity.
Qed.

Lemma SetIdentity_Compose (other self : Transform.t) :
  SetIdentity (Compose other self) = SetIdentity self.
Proof. reflexivity. Qed.

Lemma SetIdentity_again (tr : Transform.t) : SetIdentity (SetIdentity tr) = SetIdentity tr.
Proof. reflexivity. Qed.

Lemma composed_of_again (pose g s cam cmp : Transform.t) :
  composed_of pose g s cam (composed_of pose g s cam cmp) = composed_of pose g s cam cmp.
Proof.
  unfold composed_of at 1 3.
  replace (SetIdentity (composed_of pose g s cam cmp)) with (SetIdentity cmp);
    [reflexivity|].
  unfold composed_of. rewrite !SetIdentity_Compose, SetIdentity_again. reflexivity.
Qed.

Lemma ComputeInverseTransform_built (w w1 : Interp.t) :
  ComputeInverseTransform w = Ok w1 -> cache_built w1.
Proof.
  intro H. destruct (ComputeInverseTransform_Ok _ _ H) as (inv & E & ->).
  apply GetInverse_again in E.
  unfold cache_built.
  rewrite !composed_eq, !gantry_eq, !camShift_eq in *.
  cbn [m_InverseTransform m_ComposedTransform m_GantryRotTransform
       m_CamShiftTransform m_CamRotTransform m_Transform m_ProjectionAngle
       m_FocalPointToIsocenterDistance].
  rewrite !gantry_of_again, !camShift_of_again, !composed_of_again.
  repeat split; try reflexivity. exact E.
Qed.

Lemma built_ComputeInverseTransform (w : Interp.t) :
  cache_built w -> ComputeInverseTransform w = Ok (Modified w).
Proof.
  intros (Hi & Hc & Hg & Hs). unfold ComputeInverseTransform.
  rewrite Hi. cbn [bind]. rewrite Hc, Hg, Hs. destruct w; reflexivity.
Qed.

Lemma Modified_built (w : Interp.t) : cache_built w -> cache_built (Modified w).
Proof. destruct w; exact (fun H => H). Qed.

Lemma refresh_built (w : Interp.t) :
  cache_built w -> refresh w = Ok (if stale w then Modified w else w).
Proof.
  intro H. unfold refresh. destruct (stale w); [|reflexivity].
  apply built_ComputeInverseTransform, H.
Qed.

Lemma Initialize_Ok (w w2 : Interp.t) :
  Initialize w = Ok w2 ->
  exists w1, ComputeInverseTransform w = Ok w1 /\
    w2 = Interp.mk (clock w1) (MTime w1) (image w1) (m_Transform w1)
           (m_InverseTransform w1)
           (m_Threshold w1) (m_FocalPointToIsocenterDistance w1) (m_ProjectionAngle w1)
           (m_GantryRotTransform w1) (m_CamShiftTransform w1) (m_CamRotTransform w1)
           (m_ComposedTransform w1) (m_SourcePoint w1)
           (TransformPoint (m_InverseTransform w1) (m_SourcePoint w1)).
Proof.
  unfold Initialize.
  destruct (ComputeInverseTransform w) as [w1| | |]; cbn [bind]; try discriminate.
  intros [= <-]. exists w1. split; reflexivity.
Qed.

Lemma Initialize_built (w w2 : Interp.t) :
  Initialize w = Ok w2 ->
  cache_built w2 /\ m_SourceWorld w2 = SourceWorld w2 /\
  stale w2 = (clock w + 1 <? mtime (m_Transform w))%N.
Proof.
  intro H. destruct (Initialize_Ok _ _ H) as (w1 & H1 & ->).
  pose proof (ComputeInverseTransform_built _ _ H1) as B.
  split; [|split].
  - destruct w1; exact B.
  - reflexivity.
  - destruct (ComputeInverseTransform_Ok _ _ H1) as (inv & _ & ->). reflexivity.
Qed.

(** The value of [Evaluate] on a built cache is the ray cast through the
    cached inverse transform. *)
Lemma Evaluate_built (fuel : nat) (w : Interp.t) (point : Point) :
  cache_built w ->
  Evaluate fuel w point =
  (pixval <- Siddon.cast_ray fuel (image w) (m_Threshold w)
               minOutputValue maxOutputValue (SourceWorld w)
               (TransformPoint (m_InverseTransform w) point) ;;
   Ok (if stale w then Modified w else w, pixval)).
Proof.
  intro H. unfold Evaluate. rewrite (refresh_built w H). cbn [bind].
  destruct (stale w); [destruct w|]; reflexivity.
Qed.

End Cache.

End InterpFacts.

(** ** Concrete objects used to instantiate the theorems *)

Module Examples.

Import Transform Interp.

(** A rational stand-in for the C library: an angle is represented by the
    tangent of its half, so that cosines and sines are rational and lie on
    the unit circle; [atan_ 1] is chosen so that [dtr * (-90)] is the
    quarter turn. *)
#[export] Instance half_tangent : Libm := {
  cos_ := fun a => Qred ((1 - a * a) / (1 + a * a));
  sin_ := fun a => Qred ((2 * a) / (1 + a * a));
  atan_ := fun x => Qred (x / 2)
}.

#[export] Instance wide_output : OutputTraits := {
  minOutputValue := - (1000000 # 1);
  maxOutputValue := 1000000 # 1
}.

(** A 2x1x1 volume of unit voxels and intensity 100. *)
Definition row : Image :=
  mkImage (mkVec3 2 1 1)%Z (mkVec3 1 1 1) (mkVec3 0 0 0) (fun _ => 100 # 1).

(** A 10x10x10 volume of unit voxels and intensity 100. *)
Definition cube : Image :=
  mkImage (mkVec3 10 10 10)%Z (mkVec3 1 1 1) (mkVec3 0 0 0) (fun _ => 100 # 1).

Definition origin : Point := mkVec3 0 0 0.

(** An identity pose whose center is [c], last modified at time 1. *)
Definition pose_at (c : Point) : Transform.t :=
  Transform.mk 100 mat_id vzero c vzero 1.

(** A newly constructed interpolator on [cube]. *)
Definition fresh_interp (c : Point) : Interp.t := New 2 cube (pose_at c) 200.

End Examples.


(** ** [Evaluate], taken apart *)

Import Transform Interp TransformFacts InterpFacts.

Definition axis_eqb (j k : Axis) : bool :=
  match j, k with
  | AxX, AxX | AxY, AxY | AxZ, AxZ => true
  | _, _ => false
  end.

Section EvaluateFacts.

Context {libm : Libm} {out : OutputTraits}.

(** The destination of the ray of [Evaluate w point], once the cache has
    been refreshed into [w']. *)
Definition drrPixelWorld (w' : Interp.t) (point : Point) : Point :=
  TransformPoint (m_InverseTransform w') point.

Lemma cast_ray_Ok_inv fuel img thr lo hi S D v :
  cast_ray fuel img thr lo hi S D = Ok v ->
  exists su st,
    setup img S D = Ok su /\
    while img thr su fuel (entry su) = Ok st /\
    v = clamp lo hi (d12 st).
Proof.
  unfold cast_ray.
  destruct (setup img S D) as [su| | |] eqn:Es; cbn [bind]; try discriminate.
  destruct (while img thr su fuel (entry su)) as [st| | |] eqn:Ew; cbn [bind];
    try discriminate.
  intros [= <-]. exists su, st. repeat split; assumption || reflexivity.
Qed.

Lemma Evaluate_Ok_inv fuel w point w' v :
  Evaluate fuel w point = Ok (w', v) ->
  refresh w = Ok w' /\
  exists su st,
    setup (image w') (SourceWorld w') (drrPixelWorld w' point) = Ok su /\
    while (image w') (m_Threshold w') su fuel (entry su) = Ok st /\
    v = clamp minOutputValue maxOutputValue (d12 st).
Proof.
  unfold Evaluate.
  destruct (refresh w) as [w1| | |]; cbn [bind]; try discriminate.
  destruct (cast_ray _ _ _ _ _ _ _) as [pv| | |] eqn:C; cbn [bind]; try discriminate.
  intros [= <- <-]. split; [reflexivity|].
  apply cast_ray_Ok_inv in C. exact C.
Qed.

Lemma Evaluate_refresh fuel w point w' :
  refresh w = Ok w' ->
  Evaluate fuel w point =
  (pixval <- cast_ray fuel (image w') (m_Threshold w')
               minOutputValue maxOutputValue (SourceWorld w') (drrPixelWorld w' point) ;;
   Ok (w', pixval)).
Proof. intro H. unfold Evaluate. rewrite H. reflexivity. Qed.

End EvaluateFacts.

(** A ray along the x axis through the two voxels of [Examples.row]. *)
Definition ray_target : Point := mkVec3 (4 # 1) 0 0.

Definition row_setup : Setup :=
  Eval vm_compute in
    match setup Examples.row Examples.origin ray_target with
    | Ok su => su
    | _ => mkSetup 0 0 0 0 0 0 0 0 (mkTrav 0 0 0 0 (mkVec3 0 0 0)%Z 0)
    end.

Lemma row_setup_eq : setup Examples.row Examples.origin ray_target = Ok row_setup.
Proof. vm_compute. reflexivity. Qed.

(** * The parametric range (slab method) *)

(** The range of axis [k] in the words of the specification: the smaller
    and the larger of the parametric values at the planes [0] and
    [size_k * spacing_k], or the sentinel interval when the ray does not
    move along [k]. *)
Definition plane_alpha (S D : Point) (k : Axis) (plane : Q) : Q :=
  (plane - nth3 S k) / (nth3 D k - nth3 S k).

Definition slab_spec (img : Image) (S D : Point) (k : Axis) : Q * Q :=
  let far := inject_Z (nth3 (sizeCT img) k) * nth3 (ctPixelSpacing img) k in
  if Qeq_bool (nth3 D k - nth3 S k) 0 then (- (2 # 1), 2 # 1)
  else (Qmin (plane_alpha S D k 0) (plane_alpha S D k far),
        Qmax (plane_alpha S D k 0) (plane_alpha S D k far)).

Lemma rayVector_nth (S D : Point) (k : Axis) :
  nth3 (rayVector S D) k = nth3 D k - nth3 S k.
Proof. destruct k; reflexivity. Qed.

Lemma slab_refines_spec (img : Image) (S D : Point) (k : Axis) :
  exists b, slab img S D k = Ok b /\
    fst b == fst (slab_spec img S D k) /\ snd b == snd (slab_spec img S D k).
Proof.
  exists (bounds img S D k). split; [apply slab_total|].
  unfold bounds, slab_spec, plane_alpha. rewrite rayVector_nth.
  destruct (Qeq_bool (nth3 D k - nth3 S k) 0); cbn [fst snd].
  - split; reflexivity.
  - rewrite std_min_Qmin, std_max_Qmax. split; reflexivity.
Qed.

(** C3. Per axis, the parametric range is the min and the max of the values
    at the planes 0 and size*spacing when the ray moves along the axis, and
    the sentinel interval [-2, 2] when it does not; alphaMin is the largest
    of the three minima and alphaMax the smallest of the three maxima. *)
Theorem parametric_range_by_slabs (img : Image) (S D : Point) (su : Setup) :
  setup img S D = Ok su ->
  exists bx by_ bz,
    slab img S D AxX = Ok bx /\ slab img S D AxY = Ok by_ /\ slab img S D AxZ = Ok bz /\
    (forall k b, slab img S D k = Ok b ->
       fst b == fst (slab_spec img S D k) /\ snd b == snd (slab_spec img S D k)) /\
    (forall k, nth3 D k - nth3 S k == 0 -> slab img S D k = Ok (- (2 # 1), 2 # 1)) /\
    alphaMin su == Qmax (Qmax (fst bx) (fst by_)) (fst bz) /\
    alphaMax su == Qmin (Qmin (snd bx) (snd by_)) (snd bz).
Proof.
  intro H.
  destruct (setup_Ok_inv _ _ _ _ H) as (fx & fy & fz & _ & _ & _ & ->).
  exists (bounds img S D AxX), (bounds img S D AxY), (bounds img S D AxZ).
  rewrite !slab_total.
  split; [reflexivity|]. split; [reflexivity|]. split; [reflexivity|].
  split; [|split; [|split]].
  - intros k b Hb.
    destruct (slab_refines_spec img S D k) as (b' & E & Hb').
    rewrite E in Hb. injection Hb as <-. exact Hb'.
  - intros k Hk. rewrite slab_total, bounds_parallel; [reflexivity|].
    rewrite rayVector_nth. exact Hk.
  - cbn [alphaMin setup_of]. unfold alphaMin_of. rewrite !std_max_Qmax. reflexivity.
  - cbn [alphaMax setup_of]. unfold alphaMax_of. rewrite !std_min_Qmin. reflexivity.
Qed.

Lemma parametric_range_by_slabs_witness :
  exists bx by_ bz,
    slab Examples.row Examples.origin ray_target AxX = Ok bx /\
    slab Examples.row Examples.origin ray_target AxY = Ok by_ /\
    slab Examples.row Examples.origin ray_target AxZ = Ok bz /\
    (forall k b, slab Examples.row Examples.origin ray_target k = Ok b ->
       fst b == fst (slab_spec Examples.row Examples.origin ray_target k) /\
       snd b == snd (slab_spec Examples.row Examples.origin ray_target k)) /\
    (forall k, nth3 ray_target k - nth3 Examples.origin k == 0 ->
       slab Examples.row Examples.origin ray_target k = Ok (- (2 # 1), 2 # 1)) /\
    alphaMin row_setup == Qmax (Qmax (fst bx) (fst by_)) (fst bz) /\
    alphaMax row_setup == Qmin (Qmin (snd bx) (snd by_)) (snd bz).
Proof.
  apply (parametric_range_by_slabs Examples.row Examples.origin ray_target row_setup).
  vm_compute. reflexivity.
Defined.

(** * Divisions by ray components *)

Section RefreshFacts.

Context {libm : Libm} {out : OutputTraits}.

Lemma ComputeInverseTransform_cases (w : Interp.t) :
  ComputeInverseTransform w = SingularMatrix \/
  exists w', ComputeInverseTransform w = Ok w' /\ image w' = image w /\
             m_Threshold w' = m_Threshold w.
Proof.
  unfold ComputeInverseTransform, GetInverse.
  destruct (Qeq_bool _ 0); cbn [bind]; [left; reflexivity|].
  right. eexists. split; [reflexivity|]. split; reflexivity.
Qed.

Lemma refresh_cases (w : Interp.t) :
  refresh w = SingularMatrix \/
  exists w', refresh w = Ok w' /\ image w' = image w /\ m_Threshold w' = m_Threshold w.
Proof.
  unfold refresh. destruct (stale w).
  - apply ComputeInverseTransform_cases.
  - right. exists w. repeat split; reflexivity.
Qed.

End RefreshFacts.

(** C9. Every division by a ray component is guarded: the slab bounds, the
    running value and the increment of an axis are computed without a failing
    division, an axis with a zero component gets the sentinel values -2, 2,
    2 and 999, and neither the set-up nor [Evaluate] ever reports a division
    by a zero ray component. *)
Theorem ray_divisions_guarded {libm : Libm} {out : OutputTraits}
    (img : Image) (S D : Point) :
  (forall k, slab img S D k = Ok (bounds img S D k)) /\
  (forall k up down, alpha_start img S D k up down = Ok (start img S D k up down)) /\
  (forall k, alphaU img S D k = Ok (increment img S D k)) /\
  (forall k, nth3 (rayVector S D) k == 0 ->
     bounds img S D k = (- (2 # 1), 2 # 1) /\
     (forall up down, start img S D k up down = 2 # 1) /\
     increment img S D k = 999 # 1) /\
  (forall k, setup img S D <> DivisionByZero (RayComponent k)) /\
  (forall fuel w point k, Evaluate fuel w point <> DivisionByZero (RayComponent k)).
Proof.
  split; [intro; apply slab_total|].
  split; [intros; apply alpha_start_total|].
  split; [intro; apply alphaU_total|].
  split; [|split].
  - intros k Hk. split; [apply bounds_parallel, Hk|].
    split; [intros; apply start_parallel, Hk|].
    unfold increment. apply Qeq_bool_iff in Hk. rewrite Hk. reflexivity.
  - intro k. apply setup_never_ray_division.
  - intros fuel w point k.
    destruct (refresh_cases w) as [E | (w' & E & _)].
    + unfold Evaluate. rewrite E. discriminate.
    + rewrite (Evaluate_refresh fuel w point w' E). unfold cast_ray.
      pose proof (setup_never_ray_division (image w') (SourceWorld w')
                    (drrPixelWorld w' point) k) as N.
      destruct (setup _ _ _) as [su| d | |]; cbn [bind]; try discriminate.
      * destruct (while _ _ _ _ _) as [st| d | |] eqn:W; cbn [bind]; try discriminate.
        exfalso. clear - W.
        revert W. generalize (entry su). induction fuel as [|fuel IH]; intros st0; cbn.
        -- destruct (guard su st0); discriminate.
        -- destruct (guard su st0); [apply IH | discriminate].
      * intro C. apply N. injection C as ->. reflexivity.
Qed.

Lemma ray_divisions_guarded_witness :
  bounds Examples.row Examples.origin ray_target AxY = (- (2 # 1), 2 # 1) /\
  (forall up down, start Examples.row Examples.origin ray_target AxY up down = 2 # 1) /\
  increment Examples.row Examples.origin ray_target AxY = 999 # 1.
Proof.
  apply (proj1 (proj2 (proj2 (proj2
           (@ray_divisions_guarded Examples.half_tangent Examples.wide_output
              Examples.row Examples.origin ray_target))))).
  reflexivity.
Defined.

(** * The traversal step *)

(** The loop condition in the words of the specification: at every loop
    head the body runs exactly when the smallest of the three running
    parametric values is below [alphaMax]. *)
Definition runs_while_min3_below_alphaMax (img : Image) (thr : Q) (su : Setup) : Prop :=
  forall n st, head_at img thr su n (entry su) = Some st ->
    guard su st = Qltb (min3 st) (alphaMax su).

(** On the ray from the origin to (4,0,0) through [Examples.row], the third
    loop head has running values (1/2, 2, 2) and [alphaMax = 1/2]; the body
    runs once more because [alphaCmin] is still 1/4. *)
Lemma loop_condition_lags :
  exists su,
    setup Examples.row Examples.origin ray_target = Ok su /\
    ~ runs_while_min3_below_alphaMax Examples.row 0 su.
Proof.
  exists row_setup. split; [apply row_setup_eq|].
  intro H.
  assert (exists st, head_at Examples.row 0 row_setup 2 (entry row_setup) = Some st /\
                     guard row_setup st = true /\
                     Qltb (min3 st) (alphaMax row_setup) = false) as (st & E & G & M).
  { eexists. split; [vm_compute; reflexivity|]. split; vm_compute; reflexivity. }
  specialize (H 2%nat st E). congruence.
Qed.

Lemma valid_index_spec (img : Image) (i : Index) :
  valid_index img i = true <->
  forall k, (0 <= nth3 i k < nth3 (sizeCT img) k)%Z.
Proof.
  unfold valid_index. rewrite !andb_true_iff, !Z.leb_le, !Z.ltb_lt. split.
  - intros H k. destruct k; cbn; lia.
  - intro H. pose proof (H AxX). pose proof (H AxY). pose proof (H AxZ).
    cbn in *. lia.
Qed.

Lemma pick_order (st : Trav) :
  (pick st = AxX <-> alphaX st <= alphaY st /\ alphaX st <= alphaZ st) /\
  (pick st = AxY <->
     ~ (alphaX st <= alphaY st /\ alphaX st <= alphaZ st) /\
     alphaY st <= alphaX st /\ alphaY st <= alphaZ st).
Proof.
  unfold pick.
  destruct (Qle_bool (alphaX st) (alphaY st)) eqn:Exy;
  destruct (Qle_bool (alphaX st) (alphaZ st)) eqn:Exz;
  destruct (Qle_bool (alphaY st) (alphaX st)) eqn:Eyx;
  destruct (Qle_bool (alphaY st) (alphaZ st)) eqn:Eyz; cbn [andb];
  repeat match goal with
  | H : Qle_bool _ _ = true |- _ => apply Qle_bool_iff in H
  | H : Qle_bool ?a ?b = false |- _ =>
      assert (b < a) by (apply Qnot_le_lt; intro C; apply Qle_bool_iff in C; congruence);
      clear H
  end;
  (split; split; intro K;
   try discriminate; try reflexivity;
   try (exfalso; destruct K as (K1 & K2 & K3); try (apply K1; split); lra);
   try (exfalso; destruct K as (K1 & K2); lra);
   try (repeat split; try lra; intros (K1 & K2); lra)).
Qed.

Lemma advance_index (su : Setup) (st : Trav) (j : Axis) :
  nth3 (cIndex (advance su st)) j =
  if axis_eqb j (pick st) then (nth3 (cIndex st) j + indexU_of su j)%Z
  else nth3 (cIndex st) j.
Proof. unfold advance. destruct (pick st), j; reflexivity. Qed.

Lemma body_index img thr (su : Setup) (st : Trav) :
  cIndex (body img thr su st) = cIndex (advance su st).
Proof.
  unfold body.
  destruct (accumulate_alpha img thr (alphaCmin st) (advance su st))
    as (_ & _ & _ & _ & E). exact E.
Qed.

Lemma body_d12 img thr (su : Setup) (st : Trav) :
  d12 (body img thr su st) =
  let st' := body img thr su st in
  if valid_index img (cIndex st') && Qltb thr (GetPixel img (cIndex st'))
  then d12 st + (alphaCmin st' - alphaCmin st) * (GetPixel img (cIndex st') - thr)
  else d12 st.
Proof.
  cbv zeta. rewrite body_index, body_alphaCmin.
  unfold body, accumulate.
  destruct (valid_index img (cIndex (advance su st))); cbn [andb].
  - destruct (Qltb thr (GetPixel img (cIndex (advance su st)))); cbn [d12].
    + rewrite advance_alphaCmin. unfold advance; destruct (pick st); reflexivity.
    + unfold advance; destruct (pick st); reflexivity.
  - unfold advance; destruct (pick st); reflexivity.
Qed.

(** C1 (as amended). The loop runs while [alphaCmin], the current ray
    position, is below [alphaMax]; [alphaCmin] is the smallest of the three
    running values on entry and, after an iteration, the value the advanced
    axis had before its increment was added, which is the smallest of the
    three running values at the start of that iteration.  An iteration
    advances exactly one axis (x when its value is at most the two others,
    else y when its value is at most the two others, else z), adding the
    step direction (1 or -1) to its index and its increment to its running
    value, and adds (alphaCmin after - alphaCmin before) * (intensity -
    threshold) exactly when the new index is inside the volume on all three
    axes and its intensity exceeds the threshold. *)
Theorem traversal_step (img : Image) (thr : Q) (S D : Point) (su : Setup) :
  setup img S D = Ok su ->
  alphaCmin (entry su) = min3 (entry su) /\
  (forall k, indexU_of su k = 1%Z \/ indexU_of su k = (-1)%Z) /\
  forall (fuel : nat) (st : Trav),
    let st' := body img thr su st in
    while img thr su (Datatypes.S fuel) st =
      (if Qltb (alphaCmin st) (alphaMax su) then while img thr su fuel st' else Ok st) /\
    (pick st = AxX <-> alphaX st <= alphaY st /\ alphaX st <= alphaZ st) /\
    (pick st = AxY <->
       ~ (alphaX st <= alphaY st /\ alphaX st <= alphaZ st) /\
       alphaY st <= alphaX st /\ alphaY st <= alphaZ st) /\
    alpha_of st (pick st) == min3 st /\
    alphaCmin st' = alpha_of st (pick st) /\
    (forall j, alpha_of st' j =
       if axis_eqb j (pick st) then alpha_of st j + alphaU_of su j else alpha_of st j) /\
    (forall j, nth3 (cIndex st') j =
       if axis_eqb j (pick st) then (nth3 (cIndex st) j + indexU_of su j)%Z
       else nth3 (cIndex st) j) /\
    (valid_index img (cIndex st') = true <->
       forall k, (0 <= nth3 (cIndex st') k < nth3 (sizeCT img) k)%Z) /\
    d12 st' =
      (if valid_index img (cIndex st') && Qltb thr (GetPixel img (cIndex st'))
       then d12 st + (alphaCmin st' - alphaCmin st) * (GetPixel img (cIndex st') - thr)
       else d12 st).
Proof.
  intro H.
  destruct (setup_Ok_inv _ _ _ _ H) as (fx & fy & fz & _ & _ & _ & ->).
  split; [reflexivity|]. split.
  - intro k. unfold indexU_of, setup_of, indexU; cbn [iU jU kU].
    destruct k; match goal with |- context [Qltb ?a ?b] => destruct (Qltb a b) end; auto.
  - intros fuel st st'. subst st'.
    split; [reflexivity|].
    split; [apply pick_order|]. split; [apply pick_order|].
    split; [apply pick_min3|].
    split; [apply body_alphaCmin|].
    split.
    { intro j. rewrite body_alpha, advance_alpha. destruct j, (pick st); reflexivity. }
    split; [intro j; rewrite body_index; apply advance_index|].
    split; [apply valid_index_spec|].
    apply body_d12.
Qed.

Lemma traversal_step_witness :
  alphaCmin (entry row_setup) = min3 (entry row_setup).
Proof.
  exact (proj1 (traversal_step Examples.row 0 Examples.origin ray_target row_setup
                  row_setup_eq)).
Defined.

(** An initialised interpolator on [Examples.cube] with isocenter (5,5,5),
    a detector point whose ray crosses the volume and one whose ray misses
    it. *)
Import Examples.

Definition ready : Interp.t :=
  Eval vm_compute in
    match Initialize (Examples.fresh_interp (mkVec3 5 5 5)) with
    | Ok w => w
    | _ => Examples.fresh_interp Examples.origin
    end.

Lemma ready_eq : Initialize (Examples.fresh_interp (mkVec3 5 5 5)) = Ok ready.
Proof. vm_compute. reflexivity. Qed.

Definition pixel_hit : Point := mkVec3 0 0 (- (2000 # 1)).
Definition pixel_miss : Point := mkVec3 (100 # 1) 0 (- (2000 # 1)).

Definition miss_setup : Setup :=
  Eval vm_compute in
    match setup (image ready) (SourceWorld ready) (drrPixelWorld ready pixel_miss) with
    | Ok su => su
    | _ => row_setup
    end.

(** * Rays that miss the volume *)



(** * The clamp *)

Lemma clamp_cases (lo hi d : Q) :
  lo <= hi ->
  (d < lo -> clamp lo hi d = lo) /\
  (hi < d -> clamp lo hi d = hi) /\
  (lo <= d <= hi -> clamp lo hi d = d) /\
  lo <= clamp lo hi d <= hi.
Proof.
  intro H. unfold clamp.
  destruct (Qltb d lo) eqn:A; [apply Qltb_true in A | apply Qltb_false in A];
  (destruct (Qltb hi d) eqn:B; [apply Qltb_true in B | apply Qltb_false in B]);
  repeat split; intros; try reflexivity; try lra.
Qed.

(** C6. The value returned by [Evaluate] is the accumulated sum clamped to
    the output range: the minimum when the sum is below it, the maximum when
    the sum is above it, the sum itself otherwise; it always lies in the
    range. *)
Theorem result_is_clamped {libm : Libm} {out : OutputTraits}
    (fuel : nat) (w w' : Interp.t) (point : Point) (v : Q) :
  minOutputValue <= maxOutputValue ->
  Evaluate fuel w point = Ok (w', v) ->
  exists su st,
    setup (image w') (SourceWorld w') (drrPixelWorld w' point) = Ok su /\
    while (image w') (m_Threshold w') su fuel (entry su) = Ok st /\
    (d12 st < minOutputValue -> v = minOutputValue) /\
    (maxOutputValue < d12 st -> v = maxOutputValue) /\
    (minOutputValue <= d12 st <= maxOutputValue -> v = d12 st) /\
    minOutputValue <= v <= maxOutputValue.
Proof.
  intros Hle He.
  destruct (Evaluate_Ok_inv _ _ _ _ _ He) as (_ & su & st & Hs & Hw & ->).
  exists su, st. split; [exact Hs|]. split; [exact Hw|].
  apply clamp_cases, Hle.
Qed.

Definition hit_value : Q :=
  Eval vm_compute in
    match Evaluate 100 ready pixel_hit with Ok (_, v) => v | _ => 0 end.

Lemma result_is_clamped_witness :
  exists su st,
    setup (image ready) (SourceWorld ready) (drrPixelWorld ready pixel_hit) = Ok su /\
    while (image ready) (m_Threshold ready) su 100 (entry su) = Ok st /\
    (d12 st < - (1000000 # 1) -> hit_value = - (1000000 # 1)) /\
    (1000000 # 1 < d12 st -> hit_value = 1000000 # 1) /\
    (- (1000000 # 1) <= d12 st <= 1000000 # 1 -> hit_value = d12 st) /\
    - (1000000 # 1) <= hit_value <= 1000000 # 1.
Proof.
  apply (@result_is_clamped Examples.half_tangent Examples.wide_output
           100 ready ready pixel_hit hit_value).
  - apply Qle_bool_imp_le. vm_compute. reflexivity.
  - vm_compute. reflexivity.
Defined.

(** * Termination *)

Lemma setup_increments_positive (img : Image) (S D : Point) (su : Setup) :
  (forall k, 0 < nth3 (ctPixelSpacing img) k) ->
  setup img S D = Ok su ->
  forall k, 0 < alphaU_of su k.
Proof.
  intros Hsp Hs k.
  destruct (setup_Ok_inv _ _ _ _ Hs) as (fx & fy & fz & _ & _ & _ & ->).
  destruct k; cbn [alphaU_of setup_of alphaUx alphaUy alphaUz];
    apply increment_positive, Hsp.
Qed.

Lemma while_not_division img thr su fuel st d :
  while img thr su fuel st <> DivisionByZero d.
Proof.
  revert st. induction fuel as [|fuel IH]; intro st; cbn.
  - destruct (guard su st); discriminate.
  - destruct (guard su st); [apply IH | discriminate].
Qed.



(** * The cached source point *)

Section Unchanged.

Context {libm : Libm} {out : OutputTraits}.

(** States reached from [w1] without changing pose, focal distance or
    angle: calls of [Evaluate], a new time stamp on the pose object with
    its parameters as they were, and changes of the threshold. *)
Inductive unchanged_since (w1 : Interp.t) : Interp.t -> Prop :=
| us_here : unchanged_since w1 w1
| us_Evaluate w fuel point w' v :
    unchanged_since w1 w -> Evaluate fuel w point = Ok (w', v) ->
    unchanged_since w1 w'
| us_pose_stamp w :
    unchanged_since w1 w -> unchanged_since w1 (PoseChanged (fun p => p) w)
| us_SetThreshold w x :
    unchanged_since w1 w -> unchanged_since w1 (SetThreshold x w).

Lemma PoseChanged_id_built (w : Interp.t) :
  cache_built w -> cache_built (PoseChanged (fun p => p) w).
Proof.
  unfold cache_built. rewrite !composed_eq, !gantry_eq, !camShift_eq.
  unfold PoseChanged.
  cbn [m_InverseTransform m_ComposedTransform m_GantryRotTransform
       m_CamShiftTransform m_CamRotTransform m_Transform m_ProjectionAngle
       m_FocalPointToIsocenterDistance center].
  exact (fun H => H).
Qed.

Lemma SetThreshold_fields (x : Q) (w : Interp.t) :
  (cache_built w -> cache_built (SetThreshold x w)) /\
  m_InverseTransform (SetThreshold x w) = m_InverseTransform w /\
  m_SourcePoint (SetThreshold x w) = m_SourcePoint w /\
  m_SourceWorld (SetThreshold x w) = m_SourceWorld w.
Proof.
  unfold SetThreshold. destruct (Qeq_bool (m_Threshold w) x).
  - split; [exact (fun H => H)|]. split; [|split]; reflexivity.
  - split; [destruct w; exact (fun H => H)|]. split; [|split]; reflexivity.
Qed.

Lemma refresh_fields (w w' : Interp.t) :
  cache_built w -> refresh w = Ok w' ->
  cache_built w' /\
  m_InverseTransform w' = m_InverseTransform w /\
  m_SourcePoint w' = m_SourcePoint w /\
  m_SourceWorld w' = m_SourceWorld w /\
  image w' = image w /\ m_Threshold w' = m_Threshold w.
Proof.
  intros B H. rewrite (refresh_built w B) in H. injection H as <-.
  destruct (stale w).
  - split; [apply Modified_built, B|]. destruct w. repeat split; reflexivity.
  - split; [exact B|]. repeat split; reflexivity.
Qed.

Lemma unchanged_since_fields (w1 w : Interp.t) :
  cache_built w1 -> unchanged_since w1 w ->
  cache_built w /\
  m_InverseTransform w = m_InverseTransform w1 /\
  m_SourcePoint w = m_SourcePoint w1 /\
  m_SourceWorld w = m_SourceWorld w1.
Proof.
  intros B U. induction U as [|w fuel point w' v U IH E|w U IH|w x U IH].
  - split; [exact B|]. repeat split; reflexivity.
  - destruct IH as (Bw & Hi & Hp & Hw).
    apply Evaluate_Ok_inv in E. destruct E as (R & _).
    destruct (refresh_fields w w' Bw R) as (B' & Hi' & Hp' & Hw' & _).
    split; [exact B'|]. repeat split; congruence.
  - destruct IH as (Bw & Hi & Hp & Hw).
    split; [apply PoseChanged_id_built, Bw|]. repeat split; assumption.
  - destruct IH as (Bw & Hi & Hp & Hw).
    destruct (SetThreshold_fields x w) as (B' & Hi' & Hp' & Hw').
    split; [apply B', Bw|]. repeat split; congruence.
Qed.

End Unchanged.

(** C7. After [Initialize()], as long as pose, focal distance and angle are
    unchanged, the source point [Evaluate] computes for its ray equals the
    point [m_SourceWorld] cached by [Initialize()], and the call returns the
    ray cast from that cached point. *)
Theorem Evaluate_uses_cached_source {libm : Libm} {out : OutputTraits}
    (w0 w1 w : Interp.t) (fuel : nat) (point : Point) :
  Initialize w0 = Ok w1 ->
  unchanged_since w1 w ->
  exists w',
    refresh w = Ok w' /\
    SourceWorld w' = m_SourceWorld w1 /\
    m_SourceWorld w' = m_SourceWorld w1 /\
    Evaluate fuel w point =
      (pixval <- cast_ray fuel (image w') (m_Threshold w')
                   minOutputValue maxOutputValue (m_SourceWorld w1)
                   (drrPixelWorld w' point) ;;
       Ok (w', pixval)).
Proof.
  intros HI U.
  destruct (Initialize_built _ _ HI) as (B1 & S1 & _).
  destruct (unchanged_since_fields w1 w B1 U) as (Bw & Hi & Hp & Hw).
  pose proof (refresh_built w Bw) as R.
  destruct (refresh_fields w _ Bw R) as (B' & Hi' & Hp' & Hw' & _).
  eexists. split; [exact R|].
  assert (SourceWorld (if stale w then Modified w else w) = m_SourceWorld w1) as E.
  { unfold SourceWorld. rewrite Hi', Hp', Hi, Hp. symmetry. exact S1. }
  split; [exact E|]. split; [congruence|].
  rewrite (Evaluate_refresh fuel w point _ R). rewrite E. reflexivity.
Qed.

Lemma Evaluate_uses_cached_source_witness :
  exists w',
    refresh ready = Ok w' /\
    SourceWorld w' = m_SourceWorld ready /\
    m_SourceWorld w' = m_SourceWorld ready /\
    Evaluate 100 ready pixel_hit =
      (pixval <- cast_ray 100 (image w') (m_Threshold w')
                   minOutputValue maxOutputValue (m_SourceWorld ready)
                   (drrPixelWorld w' pixel_hit) ;;
       Ok (w', pixval)).
Proof.
  apply (@Evaluate_uses_cached_source Examples.half_tangent Examples.wide_output
           (Examples.fresh_interp (mkVec3 5 5 5)) ready ready 100 pixel_hit).
  - vm_compute. reflexivity.
  - apply us_here.
Defined.

(** * Idempotence of [Initialize] *)

(** C8. A second [Initialize()] with the configuration unchanged succeeds,
    leaves the same cached source point, and gives [Evaluate] the same value
    at every point. *)
Theorem Initialize_idempotent {libm : Libm} {out : OutputTraits}
    (w w1 : Interp.t) :
  Initialize w = Ok w1 ->
  exists w2,
    Initialize w1 = Ok w2 /\
    m_SourceWorld w2 = m_SourceWorld w1 /\
    m_InverseTransform w2 = m_InverseTransform w1 /\
    forall fuel point,
      value (Evaluate fuel w2 point) = value (Evaluate fuel w1 point).
Proof.
  intro H.
  destruct (Initialize_built _ _ H) as (B1 & S1 & _).
  pose proof (built_ComputeInverseTransform w1 B1) as C.
  assert (exists w2, Initialize w1 = Ok w2) as (w2 & H2).
  { unfold Initialize. rewrite C. cbn [bind]. eexists. reflexivity. }
  exists w2. split; [exact H2|].
  destruct (Initialize_built _ _ H2) as (B2 & S2 & _).
  destruct (Initialize_Ok _ _ H2) as (w1' & C' & E2).
  rewrite C in C'. injection C' as <-.
  assert (m_InverseTransform w2 = m_InverseTransform w1 /\
          m_SourcePoint w2 = m_SourcePoint w1 /\
          image w2 = image w1 /\ m_Threshold w2 = m_Threshold w1) as (Hi & Hp & Him & Ht).
  { rewrite E2. destruct w1. repeat split. }
  split; [rewrite S2, S1; unfold SourceWorld; rewrite Hi, Hp; reflexivity|].
  split; [exact Hi|].
  intros fuel point.
  rewrite (Evaluate_built fuel w2 point B2), (Evaluate_built fuel w1 point B1).
  unfold SourceWorld. rewrite Hi, Hp, Him, Ht. unfold value.
  destruct (cast_ray _ _ _ _ _ _ _); reflexivity.
Qed.

Lemma Initialize_idempotent_witness :
  exists w2,
    Initialize ready = Ok w2 /\
    m_SourceWorld w2 = m_SourceWorld ready /\
    m_InverseTransform w2 = m_InverseTransform ready /\
    forall fuel point,
      value (Evaluate fuel w2 point) = value (Evaluate fuel ready point).
Proof.
  apply (@Initialize_idempotent Examples.half_tangent Examples.wide_output
           (Examples.fresh_interp (mkVec3 5 5 5)) ready).
  vm_compute. reflexivity.
Defined.

(** * Setters and the staleness test *)

(** The specification's reading: after the setter the cache is stale, so
    that the next [Evaluate] recomputes the inverse transform. *)
Definition setter_invalidates_cache {libm : Libm} (set : Interp.t -> Interp.t) : Prop :=
  forall w, stale (set w) = true.


Section Setters.

Context {libm : Libm} {out : OutputTraits}.

Lemma fresh_refresh (w : Interp.t) : stale w = false -> refresh w = Ok w.
Proof. intro H. unfold refresh. rewrite H. reflexivity. Qed.

Lemma Modified_not_stale (w : Interp.t) :
  (mtime (m_Transform w) <= clock w)%N -> stale (Modified w) = false.
Proof.
  intro H. unfold stale, Modified. cbn [MTime m_Transform].
  apply N.ltb_ge. lia.
Qed.

Lemma Modified_clock_ok (w : Interp.t) :
  (mtime (m_Transform w) <= clock w)%N -> clock_ok (Modified w).
Proof. intro H. unfold clock_ok, Modified. cbn [MTime clock m_Transform]. lia. Qed.

End Setters.



(** * The composed transform *)

Section Geometry.

Context {libm : Libm} {out : OutputTraits}.

(** What the constructor establishes about the internal transforms and the
    source point, and every method keeps. *)
Definition constructed (w : Interp.t) : Prop :=
  matrix (m_CamShiftTransform w) = mat_id /\
  translation (m_GantryRotTransform w) = vzero /\
  (exists q, m_CamRotTransform w =
             SetRotation (dtr * (-90 # 1)) 0 0 (SetIdentity (Transform.New q))) /\
  m_SourcePoint w = mkVec3 0 0 0.

Lemma New_constructed clock0 img pose heap : constructed (New clock0 img pose heap).
Proof.
  unfold constructed, New. cbn [m_CamShiftTransform m_GantryRotTransform
    m_CamRotTransform m_SourcePoint].
  repeat split. eexists. reflexivity.
Qed.

Lemma ComputeInverseTransform_constructed (w w1 : Interp.t) :
  constructed w -> ComputeInverseTransform w = Ok w1 -> constructed w1.
Proof.
  intros (H1 & H2 & H3 & H4) C.
  destruct (ComputeInverseTransform_Ok _ _ C) as (inv & _ & ->).
  unfold constructed. cbn [m_CamShiftTransform m_GantryRotTransform
    m_CamRotTransform m_SourcePoint].
  repeat split; assumption.
Qed.

Lemma Initialize_constructed (w w1 : Interp.t) :
  constructed w -> Initialize w = Ok w1 -> constructed w1.
Proof.
  intros H I. destruct (Initialize_Ok _ _ I) as (u & C & ->).
  exact (ComputeInverseTransform_constructed w u H C).
Qed.

Lemma Evaluate_constructed fuel (w w1 : Interp.t) point v :
  constructed w -> Evaluate fuel w point = Ok (w1, v) -> constructed w1.
Proof.
  intros H E. apply Evaluate_Ok_inv in E. destruct E as (R & _).
  unfold refresh in R. destruct (stale w).
  - exact (ComputeInverseTransform_constructed w w1 H R).
  - injection R as <-. exact H.
Qed.

Lemma setters_constructed (w : Interp.t) :
  constructed w ->
  (forall p, constructed (SetTransform p w)) /\
  (forall d, constructed (SetFocalPointToIsocenterDistance d w)) /\
  (forall a, constructed (SetProjectionAngle a w)) /\
  (forall x, constructed (SetThreshold x w)) /\
  (forall f, constructed (PoseChanged f w)).
Proof.
  intro H. split; [|split; [|split; [|split]]]; intros x;
    unfold SetTransform, SetFocalPointToIsocenterDistance, SetProjectionAngle,
           SetThreshold, PoseChanged;
    try match goal with |- context [if ?b then _ else _] => destruct b end;
    exact H.
Qed.

(** The four stages, as maps of points. *)
Definition gantry_rotation (w : Interp.t) (q : Point) : Point :=
  vadd (mat_vec (RotationZ (- m_ProjectionAngle w)) (vsub q (center (m_Transform w))))
       (center (m_Transform w)).

Definition source_shift (w : Interp.t) (q : Point) : Point :=
  vadd q (focalpointtranslation w).

Definition camera_rotation (q : Point) : Point := mkVec3 (c0 q) (c2 q) (- c1 q).

Lemma composed_apply (w : Interp.t) (p : Point) :
  TransformPoint (composed w) p =v=
  TransformPoint (m_CamRotTransform w)
    (TransformPoint (camShift w)
       (TransformPoint (gantry w) (TransformPoint (m_Transform w) p))).
Proof.
  unfold composed.
  eapply veq_trans; [apply Compose_apply|]. apply TransformPoint_veq.
  eapply veq_trans; [apply Compose_apply|]. apply TransformPoint_veq.
  eapply veq_trans; [apply Compose_apply|]. apply TransformPoint_veq.
  eapply veq_trans; [apply Compose_apply|]. apply TransformPoint_veq.
  apply SetIdentity_apply.
Qed.

Hypothesis cos_zero : cos_ 0 == 1.
Hypothesis sin_zero : sin_ 0 == 0.

Lemma rotation_about_z (a : Q) (v : Vec3 Q) :
  mat_vec (mat_mul (mat_mul (RotationZ a) (RotationY 0)) (RotationX 0)) v =v=
  mat_vec (RotationZ a) v.
Proof.
  unfold RotationZ, RotationY, RotationX. crush_vec.
  rewrite !cos_zero, !sin_zero. repeat split; ring.
Qed.

Lemma rotation_about_x (a : Q) (v : Vec3 Q) :
  mat_vec (mat_mul (mat_mul (RotationZ 0) (RotationY 0)) (RotationX a)) v =v=
  mat_vec (RotationX a) v.
Proof.
  unfold RotationZ, RotationY, RotationX. crush_vec.
  rewrite !cos_zero, !sin_zero. repeat split; ring.
Qed.

Lemma vadd_veq (a a' b b' : Vec3 Q) : a =v= a' -> b =v= b' -> vadd a b =v= vadd a' b'.
Proof.
  intros (A0 & A1 & A2) (B0 & B1 & B2). unfold veq, vadd. cbn [c0 c1 c2].
  rewrite A0, A1, A2, B0, B1, B2. repeat split; reflexivity.
Qed.

Lemma gantry_apply (w : Interp.t) (q : Point) :
  translation (m_GantryRotTransform w) = vzero ->
  TransformPoint (gantry w) q =v= gantry_rotation w q.
Proof.
  intro Ht. unfold gantry, SetCenter, SetRotation.
  eapply veq_trans; [apply ComputeOffset_apply|].
  unfold ComputeOffset. cbn [matrix center translation]. rewrite Ht.
  unfold gantry_rotation.
  eapply veq_trans.
  - apply vadd_veq; [apply vadd_veq; [apply rotation_about_z|apply veq_refl]|apply veq_refl].
  - crush_vec. repeat split; ring.
Qed.

Lemma camShift_apply (w : Interp.t) (q : Point) :
  matrix (m_CamShiftTransform w) = mat_id ->
  TransformPoint (camShift w) q =v= source_shift w q.
Proof.
  intro Hm. unfold camShift, SetTranslation.
  eapply veq_trans; [apply ComputeOffset_apply|].
  cbn [matrix center translation]. rewrite Hm. unfold source_shift.
  crush_vec. repeat split; ring.
Qed.

Hypothesis cos_quarter : cos_ (dtr * (-90 # 1)) == 0.
Hypothesis sin_quarter : sin_ (dtr * (-90 # 1)) == - (1).

Lemma camRot_apply (w : Interp.t) (q : Point) :
  (exists h, m_CamRotTransform w =
             SetRotation (dtr * (-90 # 1)) 0 0 (SetIdentity (Transform.New h))) ->
  TransformPoint (m_CamRotTransform w) q =v= camera_rotation q.
Proof.
  intros (h & ->). unfold SetRotation.
  eapply veq_trans; [apply ComputeOffset_apply|].
  unfold SetIdentity. cbn [matrix center translation].
  eapply veq_trans.
  - apply vadd_veq; [apply vadd_veq; [apply rotation_about_x|apply veq_refl]|apply veq_refl].
  - unfold RotationX, camera_rotation. crush_vec.
    rewrite !cos_quarter, !sin_quarter. repeat split; ring.
Qed.

Lemma composed_stages (w : Interp.t) (p : Point) :
  constructed w ->
  TransformPoint (composed w) p =v=
  camera_rotation (source_shift w (gantry_rotation w (TransformPoint (m_Transform w) p))).
Proof.
  intros (H1 & H2 & H3 & H4).
  eapply veq_trans; [apply composed_apply|].
  eapply veq_trans; [apply camRot_apply, H3|].
  assert (forall a b, a =v= b -> camera_rotation a =v= camera_rotation b) as Hcam.
  { intros a b (A0 & A1 & A2). unfold camera_rotation, veq. cbn [c0 c1 c2].
    rewrite A0, A1, A2. repeat split; reflexivity. }
  apply Hcam.
  eapply veq_trans; [apply camShift_apply, H1|].
  unfold source_shift. apply vadd_veq; [|apply veq_refl].
  apply gantry_apply, H2.
Qed.

End Geometry.

(** The last sentence of the specification's description, read as widely as
    it allows: the forward transform sends the configured source point to a
    point at distance D from the isocenter along one of the axes. *)
Definition axis_offset (k : Axis) (d : Q) : Vec3 Q :=
  match k with
  | AxX => mkVec3 d 0 0
  | AxY => mkVec3 0 d 0
  | AxZ => mkVec3 0 0 d
  end.

Definition forward_places_source {libm : Libm} (w : Interp.t) : Prop :=
  exists k d,
    (d == m_FocalPointToIsocenterDistance w \/ d == - m_FocalPointToIsocenterDistance w) /\
    TransformPoint (composed w) (m_SourcePoint w) =v=
    vadd (center (m_Transform w)) (axis_offset k d).




(** * Further properties of the traversal loop *)

Section LoopInvariants.

Variable img : Image.
Variable thr : Q.
Variable su : Setup.

Lemma head_at_invariant (P : Trav -> Prop) :
  (forall s, P s -> guard su s = true -> P (body img thr su s)) ->
  forall n s0 s, P s0 -> head_at img thr su n s0 = Some s -> P s.
Proof.
  intros Hstep n. induction n as [|n IH]; intros s0 s H0 H; cbn in H.
  - injection H as <-. exact H0.
  - destruct (guard su s0) eqn:G; [|discriminate].
    apply (IH (body img thr su s0)); [apply Hstep; assumption | exact H].
Qed.

Lemma while_head_at (fuel : nat) (s0 s : Trav) :
  while img thr su fuel s0 = Ok s ->
  exists n, head_at img thr su n s0 = Some s /\ guard su s = false.
Proof.
  revert s0. induction fuel as [|fuel IH]; intros s0 H; cbn in H;
    destruct (guard su s0) eqn:G; try discriminate.
  - injection H as <-. exists 0%nat. split; [reflexivity | exact G].
  - destruct (IH _ H) as (n & Hn & Gn). exists (Datatypes.S n).
    split; [cbn; rewrite G; exact Hn | exact Gn].
  - injection H as <-. exists 0%nat. split; [reflexivity | exact G].
Qed.

(** The current ray position never exceeds the running values. *)
Definition ordered (st : Trav) : Prop := alphaCmin st <= min3 st.

Hypothesis increments_nonneg : forall k, 0 <= alphaU_of su k.

Lemma body_running_values (st : Trav) (k : Axis) :
  alpha_of st (pick st) <= alpha_of (body img thr su st) k.
Proof.
  rewrite body_alpha, advance_alpha.
  pose proof (pick_least st) as (Hx & Hy & Hz).
  pose proof (increments_nonneg k) as Hu.
  destruct k, (pick st); cbn [alpha_of alphaU_of] in *; lra.
Qed.

Lemma body_ordered (st : Trav) : ordered (body img thr su st).
Proof.
  unfold ordered. rewrite body_alphaCmin.
  destruct (min3_least (body img thr su st)) as (_ & _ & _ & [E | [E | E]]);
    rewrite E.
  - apply (body_running_values st AxX).
  - apply (body_running_values st AxY).
  - apply (body_running_values st AxZ).
Qed.

Lemma body_advances (st : Trav) :
  ordered st -> alphaCmin st <= alphaCmin (body img thr su st).
Proof.
  unfold ordered. intro H. rewrite body_alphaCmin, pick_min3. exact H.
Qed.

Lemma body_d12_cases (st : Trav) :
  let st' := body img thr su st in
  (d12 st' = d12 st) \/
  (valid_index img (cIndex st') = true /\
   thr < GetPixel img (cIndex st') /\
   d12 st' = d12 st + (alphaCmin st' - alphaCmin st) * (GetPixel img (cIndex st') - thr)).
Proof.
  cbv zeta. rewrite body_d12. cbv zeta.
  destruct (valid_index img (cIndex (body img thr su st))); cbn [andb]; [|left; reflexivity].
  destruct (Qltb thr (GetPixel img (cIndex (body img thr su st)))) eqn:L;
    [|left; reflexivity].
  right. apply Qltb_true in L. repeat split; assumption || reflexivity.
Qed.

(** The accumulator is a sum of products of nonnegative factors. *)
Lemma body_d12_nonneg (st : Trav) :
  ordered st -> 0 <= d12 st -> 0 <= d12 (body img thr su st).
Proof.
  intros Ho Hd. pose proof (body_advances st Ho) as Ha.
  destruct (body_d12_cases st) as [E | (_ & L & E)]; rewrite E; [exact Hd|].
  nra.
Qed.

(** With all in-range intensities at most [M], the accumulator is at most
    the parametric distance travelled times [M - thr]. *)
Lemma body_d12_bound (M A0 : Q) (st : Trav) :
  (forall i, valid_index img i = true -> GetPixel img i <= M) ->
  thr <= M ->
  ordered st ->
  d12 st <= (alphaCmin st - A0) * (M - thr) ->
  d12 (body img thr su st) <= (alphaCmin (body img thr su st) - A0) * (M - thr).
Proof.
  intros HM Ht Ho Hd. pose proof (body_advances st Ho) as Ha.
  destruct (body_d12_cases st) as [E | (V & L & E)]; rewrite E.
  - nra.
  - pose proof (HM _ V) as Hv. nra.
Qed.

(** Intensities at or below the threshold leave the accumulator alone. *)
Lemma body_d12_below (st : Trav) :
  (forall i, valid_index img i = true -> GetPixel img i <= thr) ->
  d12 (body img thr su st) = d12 st.
Proof.
  intro H. destruct (body_d12_cases st) as [E | (V & L & _)]; [exact E|].
  pose proof (H _ V). lra.
Qed.

End LoopInvariants.

Lemma setup_entry_facts (img : Image) (src dst : Point) (su : Setup) :
  setup img src dst = Ok su ->
  alphaCmin (entry su) = min3 (entry su) /\ d12 (entry su) = 0 /\
  (forall k, indexU_of su k = 1%Z \/ indexU_of su k = (-1)%Z) /\
  (forall k, alphaU_of su k = increment img src dst k) /\
  (forall k, indexU_of su k = indexU src dst k).
Proof.
  intro H. destruct (setup_Ok_inv _ _ _ _ H) as (fx & fy & fz & _ & _ & _ & ->).
  split; [reflexivity|]. split; [reflexivity|]. split; [|split].
  - intro k. unfold indexU_of, setup_of, indexU; cbn [iU jU kU].
    destruct k; match goal with |- context [Qltb ?a ?b] => destruct (Qltb a b) end; auto.
  - intro k. destruct k; reflexivity.
  - intro k. destruct k; reflexivity.
Qed.

Section EvaluateLoop.

Context {libm : Libm} {out : OutputTraits}.

(** A value returned by [Evaluate] is the clamped accumulator of a loop
    head at which the loop condition fails. *)
Lemma Evaluate_Ok_loop fuel w point w' v :
  Evaluate fuel w point = Ok (w', v) ->
  refresh w = Ok w' /\ image w' = image w /\ m_Threshold w' = m_Threshold w /\
  exists su st n,
    setup (image w) (SourceWorld w') (drrPixelWorld w' point) = Ok su /\
    head_at (image w) (m_Threshold w) su n (entry su) = Some st /\
    guard su st = false /\
    v = clamp minOutputValue maxOutputValue (d12 st).
Proof.
  intro H. destruct (Evaluate_Ok_inv _ _ _ _ _ H) as (R & su & st & Hs & Hw & Hv).
  assert (image w' = image w /\ m_Threshold w' = m_Threshold w) as (Hi & Ht).
  { destruct (refresh_cases w) as [E | (w'' & E & Hi & Ht)]; rewrite E in R;
      [discriminate|]. injection R as <-. split; assumption. }
  split; [exact R|]. split; [exact Hi|]. split; [exact Ht|].
  rewrite Hi, Ht in *.
  destruct (while_head_at _ _ _ _ _ _ Hw) as (n & Hn & G).
  exists su, st, n. repeat split; assumption.
Qed.

End EvaluateLoop.

(** X1. The first pass through the loop adds nothing to the accumulator:
    the current ray position already equals the smallest running value, so
    the first path length is zero. *)
Theorem first_iteration_adds_nothing (img : Image) (thr : Q) (src dst : Point)
    (su : Setup) :
  setup img src dst = Ok su ->
  alphaCmin (body img thr su (entry su)) == alphaCmin (entry su) /\
  d12 (body img thr su (entry su)) == 0.
Proof.
  intro H. destruct (setup_entry_facts _ _ _ _ H) as (Ha & Hd & _).
  assert (alphaCmin (body img thr su (entry su)) == alphaCmin (entry su)) as E.
  { rewrite body_alphaCmin, pick_min3, Ha. reflexivity. }
  split; [exact E|].
  destruct (body_d12_cases img thr su (entry su)) as [D | (_ & _ & D)]; rewrite D, Hd.
  - reflexivity.
  - rewrite E. ring.
Qed.

Lemma first_iteration_adds_nothing_witness :
  alphaCmin (body Examples.row 0 row_setup (entry row_setup)) == alphaCmin (entry row_setup) /\
  d12 (body Examples.row 0 row_setup (entry row_setup)) == 0.
Proof.
  apply (first_iteration_adds_nothing Examples.row 0 Examples.origin ray_target row_setup).
  vm_compute. reflexivity.
Defined.

(** X2. With positive voxel spacings the accumulated sum is never negative,
    and neither is the value [Evaluate] returns when the output type's
    maximum is not negative. *)
Theorem Evaluate_nonnegative {libm : Libm} {out : OutputTraits}
    (fuel : nat) (w w' : Interp.t) (point : Point) (v : Q) :
  (forall k, 0 < nth3 (ctPixelSpacing (image w)) k) ->
  0 <= maxOutputValue ->
  Evaluate fuel w point = Ok (w', v) ->
  0 <= v.
Proof.
  intros Hsp Hmax H.
  destruct (Evaluate_Ok_loop _ _ _ _ _ H) as (_ & _ & _ & su & st & n & Hs & Hn & _ & ->).
  pose proof (setup_increments_positive _ _ _ _ Hsp Hs) as Hu.
  destruct (setup_entry_facts _ _ _ _ Hs) as (Ha & Hd & _).
  assert (ordered st /\ 0 <= d12 st) as (_ & Hd12).
  { apply (head_at_invariant (image w) (m_Threshold w) su
             (fun s => ordered s /\ 0 <= d12 s)) with (n := n) (s0 := entry su).
    - intros s (Ho & Hp) _. split.
      + apply body_ordered. intro k. apply Qlt_le_weak, Hu.
      + apply body_d12_nonneg; assumption.
    - split; [unfold ordered; rewrite Ha; apply Qle_refl | rewrite Hd; apply Qle_refl].
    - exact Hn. }
  unfold clamp.
  destruct (Qltb (d12 st) minOutputValue) eqn:A.
  - apply Qltb_true in A. lra.
  - destruct (Qltb maxOutputValue (d12 st)); assumption.
Qed.

Lemma Evaluate_nonnegative_witness : 0 <= hit_value.
Proof.
  apply (@Evaluate_nonnegative Examples.half_tangent Examples.wide_output
           100 ready ready pixel_hit hit_value).
  - intro k. destruct k; reflexivity.
  - apply Qle_bool_imp_le. vm_compute. reflexivity.
  - vm_compute. reflexivity.
Defined.

(** X3. When no voxel of the volume exceeds the threshold the accumulated
    sum is exactly 0, whatever the ray. *)
Theorem Evaluate_below_threshold {libm : Libm} {out : OutputTraits}
    (fuel : nat) (w w' : Interp.t) (point : Point) (v : Q) :
  (forall i, valid_index (image w) i = true -> GetPixel (image w) i <= m_Threshold w) ->
  Evaluate fuel w point = Ok (w', v) ->
  v = clamp minOutputValue maxOutputValue 0.
Proof.
  intros Hlow H.
  destruct (Evaluate_Ok_loop _ _ _ _ _ H) as (_ & _ & _ & su & st & n & Hs & Hn & _ & ->).
  destruct (setup_entry_facts _ _ _ _ Hs) as (_ & Hd & _).
  assert (d12 st = 0) as ->; [|reflexivity].
  apply (head_at_invariant (image w) (m_Threshold w) su (fun s => d12 s = 0))
    with (n := n) (s0 := entry su); [|exact Hd|exact Hn].
  intros s Hz _. rewrite body_d12_below; assumption.
Qed.

(** The initialised interpolator with the threshold raised to the intensity
    of the volume. *)
Definition dimmed : Interp.t := SetThreshold (100 # 1) ready.

Lemma Evaluate_below_threshold_witness :
  exists w' v,
    Evaluate 100 dimmed pixel_hit = Ok (w', v) /\
    v = clamp minOutputValue maxOutputValue 0.
Proof.
  destruct (Evaluate 100 dimmed pixel_hit) as [[w' v]|d| |] eqn:E.
  - exists w', v. split; [reflexivity|].
    apply (@Evaluate_below_threshold Examples.half_tangent Examples.wide_output
             100 dimmed w' pixel_hit v); [|exact E].
    intros i _. apply Qle_bool_imp_le. reflexivity.
  - vm_compute in E. discriminate.
  - vm_compute in E. discriminate.
  - vm_compute in E. discriminate.
Defined.



(** * No voxel is visited twice *)

Section Progress.

Variable img : Image.
Variable thr : Q.
Variable su : Setup.

(** The index measured along the step directions. *)
Definition progress (i : Index) : Z :=
  (iU su * c0 i + jU su * c1 i + kU su * c2 i)%Z.

Hypothesis unit_steps : forall k, indexU_of su k = 1%Z \/ indexU_of su k = (-1)%Z.

Lemma body_progress (st : Trav) :
  progress (cIndex (body img thr su st)) = (progress (cIndex st) + 1)%Z.
Proof.
  rewrite body_index. unfold progress, advance.
  pose proof (unit_steps AxX) as Hx. pose proof (unit_steps AxY) as Hy.
  pose proof (unit_steps AxZ) as Hz. cbn [indexU_of] in *.
  destruct (pick st); cbn [cIndex upd3 c0 c1 c2];
    destruct Hx as [-> | ->], Hy as [-> | ->], Hz as [-> | ->]; lia.
Qed.

Lemma head_at_progress (n : nat) :
  forall s0 s, head_at img thr su n s0 = Some s ->
  progress (cIndex s) = (progress (cIndex s0) + Z.of_nat n)%Z.
Proof.
  induction n as [|n IH]; intros s0 s H; cbn [head_at] in H.
  - injection H as <-. cbn. lia.
  - destruct (guard su s0); [|discriminate].
    rewrite (IH _ _ H), body_progress. lia.
Qed.

End Progress.

(** X5. The voxel indices at two different loop heads of one ray differ:
    every iteration moves the index one step along a fixed direction per
    axis, so the traversal never returns to an index it has left. *)
Theorem no_voxel_twice (img : Image) (thr : Q) (src dst : Point) (su : Setup)
    (n m : nat) (s s' : Trav) :
  setup img src dst = Ok su ->
  n <> m ->
  head_at img thr su n (entry su) = Some s ->
  head_at img thr su m (entry su) = Some s' ->
  cIndex s <> cIndex s'.
Proof.
  intros H Hnm Hn Hm E.
  destruct (setup_entry_facts _ _ _ _ H) as (_ & _ & Hu & _).
  pose proof (head_at_progress img thr su Hu n _ _ Hn) as Pn.
  pose proof (head_at_progress img thr su Hu m _ _ Hm) as Pm.
  rewrite E in Pn. lia.
Qed.

Lemma no_voxel_twice_witness :
  exists s s',
    head_at Examples.row 0 row_setup 1 (entry row_setup) = Some s /\
    head_at Examples.row 0 row_setup 3 (entry row_setup) = Some s' /\
    cIndex s <> cIndex s'.
Proof.
  destruct (head_at Examples.row 0 row_setup 1 (entry row_setup)) as [s|] eqn:E1;
    [|vm_compute in E1; discriminate].
  destruct (head_at Examples.row 0 row_setup 3 (entry row_setup)) as [s'|] eqn:E3;
    [|vm_compute in E3; discriminate].
  exists s, s'. split; [reflexivity|]. split; [reflexivity|].
  apply (no_voxel_twice Examples.row 0 Examples.origin ray_target row_setup 1 3 s s').
  - vm_compute. reflexivity.
  - discriminate.
  - exact E1.
  - exact E3.
Defined.

(** * Increments and grid planes *)

Section GridPlanes.

Variable img : Image.
Variables src dst : Point.
Variable su : Setup.
Hypothesis su_setup : setup img src dst = Ok su.

Lemma increment_times_ray (k : Axis) :
  ~ nth3 (rayVector src dst) k == 0 ->
  alphaU_of su k * nth3 (rayVector src dst) k ==
  inject_Z (indexU_of su k) * nth3 (ctPixelSpacing img) k.
Proof.
  intro Hr. destruct (setup_entry_facts _ _ _ _ su_setup) as (_ & _ & _ & Hu & Hi).
  rewrite Hu, Hi. unfold increment, indexU.
  rewrite (proj2 (Qeq_bool_false _ _) Hr).
  pose proof (rayVector_nth src dst k) as E.
  set (r := nth3 (rayVector src dst) k) in *.
  destruct (Qltb (nth3 src k) (nth3 dst k)) eqn:L.
  - apply Qltb_true in L. assert (0 < r) as Hp by (rewrite E; lra).
    unfold abs. rewrite (Qabs_pos r) by lra.
    change (inject_Z 1) with 1. field. exact Hr.
  - apply Qltb_false in L. assert (r < 0) as Hn.
    { rewrite E in *. destruct (Q_dec (nth3 dst k - nth3 src k) 0) as [[C|C]|C];
        [exact C | lra | contradiction]. }
    unfold abs. rewrite (Qabs_neg r) by lra.
    change (inject_Z (-1)) with (- (1)). field. lra.
Qed.

(** The coordinate along axis [k] of the ray point of parameter [a] is a
    whole number of voxel spacings. *)
Definition on_plane (k : Axis) (a : Q) : Prop :=
  exists n : Z, firstIntersection src dst a k == inject_Z n * nth3 (ctPixelSpacing img) k.

Lemma on_plane_step (k : Axis) (a : Q) :
  ~ nth3 (rayVector src dst) k == 0 ->
  on_plane k a -> on_plane k (a + alphaU_of su k).
Proof.
  intros Hr (n & Hn). exists (n + indexU_of su k)%Z.
  unfold firstIntersection in *. rewrite inject_Z_plus.
  pose proof (increment_times_ray k Hr) as E.
  rewrite Qmult_plus_distr_l, Qmult_plus_distr_l, E, Qplus_assoc, Hn. reflexivity.
Qed.

Lemma on_plane_start (k : Axis) (up down : Z) :
  ~ nth3 (rayVector src dst) k == 0 ->
  on_plane k (start img src dst k up down).
Proof.
  intro Hr. unfold start. rewrite (proj2 (Qeq_bool_false _ _) Hr).
  match goal with |- on_plane _ (std_max ?u ?d) =>
    destruct (std_max_spec u d) as ([-> | ->] & _)
  end; [exists up | exists down]; unfold firstIntersection; field; exact Hr.
Qed.

Lemma entry_on_planes (k : Axis) :
  ~ nth3 (rayVector src dst) k == 0 -> on_plane k (alpha_of (entry su) k).
Proof.
  intro Hr.
  destruct (setup_Ok_inv _ _ _ _ su_setup) as (fx & fy & fz & _ & _ & _ & E).
  rewrite E. destruct k; cbn [alpha_of entry setup_of alphaX alphaY alphaZ];
    apply on_plane_start, Hr.
Qed.

Lemma body_on_planes (thr : Q) (st : Trav) :
  (forall k, ~ nth3 (rayVector src dst) k == 0 -> on_plane k (alpha_of st k)) ->
  forall k, ~ nth3 (rayVector src dst) k == 0 ->
    on_plane k (alpha_of (body img thr su st) k).
Proof.
  intros H k Hr. rewrite body_alpha, advance_alpha.
  match goal with |- on_plane _ (if ?b then _ else _) => destruct b end.
  - apply on_plane_step; [exact Hr | apply H, Hr].
  - apply H, Hr.
Qed.

End GridPlanes.





(** * What the ray casting reads of the volume *)

(** Two volumes of the same size and spacing whose voxels agree inside the
    index range; origins and values outside the range may differ. *)
Definition same_volume (img img' : Image) : Prop :=
  sizeCT img = sizeCT img' /\
  ctPixelSpacing img = ctPixelSpacing img' /\
  forall i, valid_index img i = true -> GetPixel img i = GetPixel img' i.

Lemma setup_same_grid (img img' : Image) (src dst : Point) :
  sizeCT img = sizeCT img' -> ctPixelSpacing img = ctPixelSpacing img' ->
  setup img src dst = setup img' src dst.
Proof.
  intros Hs Hp.
  unfold setup, slab, firstIntersectionIndex, alpha_start, alphaU.
  rewrite Hs, Hp. reflexivity.
Qed.

Lemma valid_index_same_size (img img' : Image) (i : Index) :
  sizeCT img = sizeCT img' -> valid_index img i = valid_index img' i.
Proof. intro Hs. unfold valid_index. rewrite Hs. reflexivity. Qed.

Lemma body_same_volume (img img' : Image) (thr : Q) (su : Setup) (st : Trav) :
  same_volume img img' -> body img thr su st = body img' thr su st.
Proof.
  intros (Hs & _ & Hv). unfold body, accumulate.
  rewrite <- (valid_index_same_size img img' _ Hs).
  destruct (valid_index img (cIndex (advance su st))) eqn:V; [|reflexivity].
  rewrite <- (Hv _ V). reflexivity.
Qed.

Lemma while_same_volume (img img' : Image) (thr : Q) (su : Setup) (fuel : nat) :
  same_volume img img' ->
  forall st, while img thr su fuel st = while img' thr su fuel st.
Proof.
  intro H. induction fuel as [|fuel IH]; intro st; cbn [while]; [reflexivity|].
  destruct (guard su st); [|reflexivity].
  rewrite (body_same_volume img img' thr su st H). apply IH.
Qed.

Lemma cast_ray_same_volume (img img' : Image) fuel thr lo hi (src dst : Point) :
  same_volume img img' ->
  cast_ray fuel img thr lo hi src dst = cast_ray fuel img' thr lo hi src dst.
Proof.
  intro H. unfold cast_ray.
  rewrite (setup_same_grid img img' src dst (proj1 H) (proj1 (proj2 H))).
  destruct (setup img' src dst) as [su| | |]; cbn [bind]; try reflexivity.
  rewrite (while_same_volume img img' thr su fuel H). reflexivity.
Qed.

(** [SetInputImage] of the base class connects the volume. *)
Definition SetInputImage (img : Image) (w : Interp.t) : Interp.t :=
  Interp.mk (clock w) (MTime w) img (m_Transform w) (m_InverseTransform w)
    (m_Threshold w) (m_FocalPointToIsocenterDistance w) (m_ProjectionAngle w)
    (m_GantryRotTransform w) (m_CamShiftTransform w) (m_CamRotTransform w)
    (m_ComposedTransform w) (m_SourcePoint w) (m_SourceWorld w).

Section InputImage.

Context {libm : Libm} {out : OutputTraits}.

Lemma ComputeInverseTransform_SetInputImage (img : Image) (w : Interp.t) :
  ComputeInverseTransform (SetInputImage img w) =
  (w' <- ComputeInverseTransform w ;; Ok (SetInputImage img w')).
Proof.
  unfold ComputeInverseTransform.
  rewrite (composed_eq (SetInputImage img w)), (gantry_eq (SetInputImage img w)),
          (camShift_eq (SetInputImage img w)).
  rewrite (composed_eq w), (gantry_eq w), (camShift_eq w).
  unfold SetInputImage at 1 2 3 4 5 6 7 8 9 10 11 12.
  cbn [m_InverseTransform m_ComposedTransform m_GantryRotTransform
       m_CamShiftTransform m_CamRotTransform m_Transform m_ProjectionAngle
       m_FocalPointToIsocenterDistance].
  destruct (GetInverse _ (m_InverseTransform w)); reflexivity.
Qed.

Lemma refresh_SetInputImage (img : Image) (w : Interp.t) :
  refresh (SetInputImage img w) = (w' <- refresh w ;; Ok (SetInputImage img w')).
Proof.
  unfold refresh.
  change (stale (SetInputImage img w)) with (stale w).
  destruct (stale w); [apply ComputeInverseTransform_SetInputImage | reflexivity].
Qed.

Lemma Evaluate_SetInputImage (img : Image) fuel (w : Interp.t) (point : Point) :
  value (Evaluate fuel (SetInputImage img w) point) =
  (w' <- refresh w ;;
   cast_ray fuel img (m_Threshold w') minOutputValue maxOutputValue
     (SourceWorld w') (drrPixelWorld w' point)).
Proof.
  unfold Evaluate. rewrite refresh_SetInputImage.
  destruct (refresh w) as [w'| | |]; cbn [bind]; try reflexivity.
  change (image (SetInputImage img w')) with img.
  change (m_Threshold (SetInputImage img w')) with (m_Threshold w').
  change (SourceWorld (SetInputImage img w')) with (SourceWorld w').
  change (m_InverseTransform (SetInputImage img w')) with (m_InverseTransform w').
  unfold value, drrPixelWorld.
  destruct (cast_ray _ _ _ _ _ _ _); reflexivity.
Qed.

End InputImage.

(** X8. [Evaluate] reads the volume only through its size, its spacing and
    the voxels inside the index range: two volumes that agree on these give
    the same result, whatever their origins and whatever lies outside the
    range. *)
Theorem Evaluate_reads_grid_only {libm : Libm} {out : OutputTraits}
    (img img' : Image) (fuel : nat) (w : Interp.t) (point : Point) :
  same_volume img img' ->
  value (Evaluate fuel (SetInputImage img w) point) =
  value (Evaluate fuel (SetInputImage img' w) point).
Proof.
  intro H. rewrite !Evaluate_SetInputImage.
  destruct (refresh w) as [w'| | |]; cbn [bind]; try reflexivity.
  apply cast_ray_same_volume, H.
Qed.

(** [Examples.cube] moved to another origin and with other values outside
    the index range. *)
Definition cube_elsewhere : Image :=
  mkImage (mkVec3 10 10 10)%Z (mkVec3 1 1 1) (mkVec3 (7 # 1) (8 # 1) (9 # 1))
    (fun i => if valid_index Examples.cube i then 100 # 1 else 5 # 1).

Lemma Evaluate_reads_grid_only_witness :
  value (Evaluate 100 (SetInputImage Examples.cube ready) pixel_hit) =
  value (Evaluate 100 (SetInputImage cube_elsewhere ready) pixel_hit).
Proof.
  apply (@Evaluate_reads_grid_only Examples.half_tangent Examples.wide_output
           Examples.cube cube_elsewhere 100 ready pixel_hit).
  split; [reflexivity|]. split; [reflexivity|].
  intros i V. cbn [GetPixel cube_elsewhere]. rewrite V. reflexivity.
Defined.

(** * Monotonicity in the intensities and in the threshold *)

Definition set_d12 (x : Q) (st : Trav) : Trav :=
  mkTrav (alphaX st) (alphaY st) (alphaZ st) (alphaCmin st) (cIndex st) x.

Section Monotone.

Variables img img' : Image.
Variables thr thr' : Q.
Variable su : Setup.

Hypothesis same_size : sizeCT img = sizeCT img'.
Hypothesis brighter : forall i, valid_index img i = true -> GetPixel img i <= GetPixel img' i.
Hypothesis lower_threshold : thr' <= thr.
Hypothesis increments_nonneg : forall k, 0 <= alphaU_of su k.

Lemma advance_set_d12 (x : Q) (st : Trav) :
  advance su (set_d12 x st) = set_d12 x (advance su st).
Proof.
  unfold advance. change (pick (set_d12 x st)) with (pick st).
  destruct (pick st); reflexivity.
Qed.

(** The second run follows the same path and accumulates at least as much. *)
Lemma body_coupled (x : Q) (st : Trav) :
  ordered st -> d12 st <= x ->
  exists x', body img' thr' su (set_d12 x st) = set_d12 x' (body img thr su st) /\
             d12 (body img thr su st) <= x'.
Proof.
  intros Ho Hx.
  pose proof (body_advances img thr su st Ho) as Ha.
  rewrite body_alphaCmin, <- (advance_alphaCmin su st) in Ha.
  unfold body. change (alphaCmin (set_d12 x st)) with (alphaCmin st).
  rewrite advance_set_d12.
  assert (d12 (advance su st) = d12 st) as Hd.
  { unfold advance. destruct (pick st); reflexivity. }
  unfold accumulate.
  change (cIndex (set_d12 x (advance su st))) with (cIndex (advance su st)).
  rewrite <- (valid_index_same_size img img' _ same_size).
  destruct (valid_index img (cIndex (advance su st))) eqn:V.
  - pose proof (brighter _ V) as Hb.
    destruct (Qltb thr (GetPixel img (cIndex (advance su st)))) eqn:L;
    destruct (Qltb thr' (GetPixel img' (cIndex (advance su st)))) eqn:L';
    try apply Qltb_true in L; try apply Qltb_false in L;
    try apply Qltb_true in L'; try apply Qltb_false in L'.
    + eexists. split; [reflexivity|]. cbn [d12 set_d12 alphaCmin]. rewrite Hd. nra.
    + exfalso. lra.
    + eexists. split; [reflexivity|]. cbn [d12 set_d12 alphaCmin]. rewrite Hd. nra.
    + exists x. split; [reflexivity|]. rewrite Hd. exact Hx.
  - exists x. split; [reflexivity|]. rewrite Hd. exact Hx.
Qed.

Lemma while_coupled (fuel : nat) :
  forall st x r, ordered st -> d12 st <= x ->
  while img thr su fuel st = Ok r ->
  exists x', while img' thr' su fuel (set_d12 x st) = Ok (set_d12 x' r) /\ d12 r <= x'.
Proof.
  induction fuel as [|fuel IH]; intros st x r Ho Hx H; cbn [while] in *;
    change (guard su (set_d12 x st)) with (guard su st);
    destruct (guard su st); try discriminate.
  - injection H as <-. exists x. split; [reflexivity | exact Hx].
  - destruct (body_coupled x st Ho Hx) as (x1 & E & Hx1). rewrite E.
    apply (IH _ _ _ (body_ordered img thr su increments_nonneg st) Hx1 H).
  - injection H as <-. exists x. split; [reflexivity | exact Hx].
Qed.

End Monotone.

Lemma clamp_monotone (lo hi d d' : Q) :
  lo <= hi -> d <= d' -> clamp lo hi d <= clamp lo hi d'.
Proof.
  intros H Hd. unfold clamp.
  destruct (Qltb d lo) eqn:A; [apply Qltb_true in A | apply Qltb_false in A];
  (destruct (Qltb hi d) eqn:B; [apply Qltb_true in B | apply Qltb_false in B]);
  (destruct (Qltb d' lo) eqn:A'; [apply Qltb_true in A' | apply Qltb_false in A']);
  (destruct (Qltb hi d') eqn:B'; [apply Qltb_true in B' | apply Qltb_false in B']);
  lra.
Qed.

(** X9. Along a given ray, raising voxel intensities or lowering the
    threshold never lowers the value of the ray casting: the path does not
    depend on them, and every term of the sum grows. *)
Theorem cast_ray_monotone (fuel : nat) (img img' : Image) (thr thr' lo hi : Q)
    (src dst : Point) (v : Q) :
  sizeCT img = sizeCT img' ->
  ctPixelSpacing img = ctPixelSpacing img' ->
  (forall k, 0 < nth3 (ctPixelSpacing img) k) ->
  (forall i, valid_index img i = true -> GetPixel img i <= GetPixel img' i) ->
  thr' <= thr ->
  lo <= hi ->
  cast_ray fuel img thr lo hi src dst = Ok v ->
  exists v', cast_ray fuel img' thr' lo hi src dst = Ok v' /\ v <= v'.
Proof.
  intros Hs Hp Hsp Hb Ht Hlh H.
  destruct (cast_ray_Ok_inv _ _ _ _ _ _ _ _ H) as (su & st & Hsu & Hw & ->).
  pose proof (setup_increments_positive _ _ _ _ Hsp Hsu) as Hu.
  destruct (setup_entry_facts _ _ _ _ Hsu) as (Ha & _).
  destruct (while_coupled img img' thr thr' su Hs Hb Ht
              (fun k => Qlt_le_weak _ _ (Hu k)) fuel (entry su) (d12 (entry su)) st)
    as (x' & W & Hx).
  - unfold ordered. rewrite Ha. apply Qle_refl.
  - apply Qle_refl.
  - exact Hw.
  - exists (clamp lo hi x'). split; [|apply clamp_monotone; assumption].
    unfold cast_ray. rewrite <- (setup_same_grid img img' src dst Hs Hp), Hsu.
    cbn [bind].
    replace (entry su) with (set_d12 (d12 (entry su)) (entry su))
      by (destruct (entry su); reflexivity).
    rewrite W. reflexivity.
Qed.

Lemma cast_ray_monotone_witness :
  exists v v',
    cast_ray 10 Examples.row (50 # 1) (- (1000 # 1)) (1000 # 1) Examples.origin
      (mkVec3 (8 # 1) 0 0) = Ok v /\
    cast_ray 10 Examples.row 0 (- (1000 # 1)) (1000 # 1) Examples.origin
      (mkVec3 (8 # 1) 0 0) = Ok v' /\
    v <= v'.
Proof.
  destruct (cast_ray 10 Examples.row (50 # 1) (- (1000 # 1)) (1000 # 1) Examples.origin
              (mkVec3 (8 # 1) 0 0)) as [v|d| |] eqn:E;
    [|vm_compute in E; discriminate ..].
  destruct (cast_ray_monotone 10 Examples.row Examples.row (50 # 1) 0
              (- (1000 # 1)) (1000 # 1) Examples.origin (mkVec3 (8 # 1) 0 0) v)
    as (v' & E' & Hv).
  - reflexivity.
  - reflexivity.
  - intro k. destruct k; reflexivity.
  - intros i _. apply Qle_refl.
  - apply Qle_bool_imp_le. reflexivity.
  - apply Qle_bool_imp_le. reflexivity.
  - exact E.
  - exists v, v'. split; [reflexivity|]. split; [exact E' | exact Hv].
Defined.

(** * The object across calls *)

Section Calls.

Context {libm : Libm} {out : OutputTraits}.

Lemma refresh_Ok_cases (w w' : Interp.t) :
  refresh w = Ok w' ->
  (stale w = false /\ w' = w) \/
  (stale w = true /\ ComputeInverseTransform w = Ok w').
Proof.
  unfold refresh. destruct (stale w); intro H.
  - right. split; [reflexivity | exact H].
  - left. injection H as <-. split; reflexivity.
Qed.

Lemma ComputeInverseTransform_clock (w w' : Interp.t) :
  clock_ok w -> ComputeInverseTransform w = Ok w' ->
  clock_ok w' /\ stale w' = false.
Proof.
  intros (_ & Hp) H. destruct (ComputeInverseTransform_Ok _ _ H) as (inv & _ & ->).
  unfold clock_ok, stale. cbn [MTime clock m_Transform].
  split; [lia|]. apply N.ltb_ge. lia.
Qed.

Lemma Initialize_clock (w w' : Interp.t) :
  clock_ok w -> Initialize w = Ok w' -> clock_ok w' /\ stale w' = false.
Proof.
  intros Hc H. destruct (Initialize_Ok _ _ H) as (w1 & C & ->).
  exact (ComputeInverseTransform_clock w w1 Hc C).
Qed.

End Calls.

(** X10. [Evaluate] never changes the configuration: the volume, the pose
    object, the threshold, the focal distance, the angle and the source
    point are those of before the call, and so is the cached
    [m_SourceWorld], also when the call rebuilds the inverse transform. *)
Theorem Evaluate_keeps_configuration {libm : Libm} {out : OutputTraits}
    (fuel : nat) (w w' : Interp.t) (point : Point) (v : Q) :
  Evaluate fuel w point = Ok (w', v) ->
  image w' = image w /\
  m_Transform w' = m_Transform w /\
  m_Threshold w' = m_Threshold w /\
  m_FocalPointToIsocenterDistance w' = m_FocalPointToIsocenterDistance w /\
  m_ProjectionAngle w' = m_ProjectionAngle w /\
  m_CamRotTransform w' = m_CamRotTransform w /\
  m_SourcePoint w' = m_SourcePoint w /\
  m_SourceWorld w' = m_SourceWorld w.
Proof.
  intro H. destruct (Evaluate_Ok_inv _ _ _ _ _ H) as (R & _).
  destruct (refresh_Ok_cases w w' R) as [(_ & ->) | (_ & C)].
  - repeat split.
  - destruct (ComputeInverseTransform_Ok _ _ C) as (inv & _ & ->). repeat split.
Qed.

Lemma Evaluate_keeps_configuration_witness :
  exists w' v,
    Evaluate 100 ready pixel_hit = Ok (w', v) /\
    m_Threshold w' = m_Threshold ready /\ m_SourceWorld w' = m_SourceWorld ready.
Proof.
  destruct (Evaluate 100 ready pixel_hit) as [[w' v]|d| |] eqn:E;
    [|vm_compute in E; discriminate ..].
  destruct (@Evaluate_keeps_configuration Examples.half_tangent Examples.wide_output
              100 ready w' pixel_hit v E) as (_ & _ & H3 & _ & _ & _ & _ & H8).
  exists w', v. split; [reflexivity|]. split; assumption.
Defined.

(** X11. When the time stamps come from the global counter, a call of
    [Evaluate] or of [Initialize()] leaves a cache that is not stale: the
    next [Evaluate] does not rebuild the inverse transform and returns the
    object as it is. *)
Theorem cache_fresh_after_call {libm : Libm} {out : OutputTraits} (w : Interp.t) :
  clock_ok w ->
  (forall fuel point w' v,
     Evaluate fuel w point = Ok (w', v) ->
     clock_ok w' /\ stale w' = false /\
     forall fuel' point' w'' v',
       Evaluate fuel' w' point' = Ok (w'', v') -> w'' = w') /\
  (forall w',
     Initialize w = Ok w' ->
     clock_ok w' /\ stale w' = false /\
     forall fuel' point' w'' v',
       Evaluate fuel' w' point' = Ok (w'', v') -> w'' = w').
Proof.
  intro Hc.
  assert (forall u, stale u = false ->
            forall fuel' point' w'' v',
              Evaluate fuel' u point' = Ok (w'', v') -> w'' = u) as Hnext.
  { intros u Hs fuel' point' w'' v' E.
    destruct (Evaluate_Ok_inv _ _ _ _ _ E) as (R & _).
    destruct (refresh_Ok_cases u w'' R) as [(_ & ->) | (C & _)];
      [reflexivity | congruence]. }
  split.
  - intros fuel point w' v E.
    destruct (Evaluate_Ok_inv _ _ _ _ _ E) as (R & _).
    destruct (refresh_Ok_cases w w' R) as [(Hs & ->) | (_ & C)].
    + split; [exact Hc|]. split; [exact Hs | apply Hnext, Hs].
    + destruct (ComputeInverseTransform_clock w w' Hc C) as (Hc' & Hs').
      split; [exact Hc'|]. split; [exact Hs' | apply Hnext, Hs'].
  - intros w' I. destruct (Initialize_clock w w' Hc I) as (Hc' & Hs').
    split; [exact Hc'|]. split; [exact Hs' | apply Hnext, Hs'].
Qed.

Lemma cache_fresh_after_call_witness :
  exists w', Initialize (Examples.fresh_interp (mkVec3 5 5 5)) = Ok w' /\ stale w' = false.
Proof.
  destruct (Initialize (Examples.fresh_interp (mkVec3 5 5 5))) as [w'|d| |] eqn:E;
    [|vm_compute in E; discriminate ..].
  exists w'. split; [reflexivity|].
  assert (clock_ok (Examples.fresh_interp (mkVec3 5 5 5))) as Hc
    by (split; vm_compute; intro C; discriminate).
  apply (proj2 (@cache_fresh_after_call Examples.half_tangent Examples.wide_output
                  (Examples.fresh_interp (mkVec3 5 5 5)) Hc) w' E).
Defined.

(** X12. On a stale cache [Evaluate] returns what it returns after an
    explicit [Initialize()]: the lazy rebuild and the explicit one store the
    same inverse transform. *)
Theorem stale_Evaluate_as_after_Initialize {libm : Libm} {out : OutputTraits}
    (fuel : nat) (w w2 : Interp.t) (point : Point) :
  stale w = true ->
  Initialize w = Ok w2 ->
  value (Evaluate fuel w point) = value (Evaluate fuel w2 point).
Proof.
  intros Hs I.
  destruct (Initialize_built _ _ I) as (B2 & _).
  destruct (Initialize_Ok _ _ I) as (w1 & C & E2).
  assert (refresh w = Ok w1) as R by (unfold refresh; rewrite Hs; exact C).
  rewrite (Evaluate_refresh fuel w point w1 R).
  rewrite (Evaluate_built fuel w2 point B2).
  assert (image w2 = image w1 /\ m_Threshold w2 = m_Threshold w1 /\
          SourceWorld w2 = SourceWorld w1 /\
          m_InverseTransform w2 = m_InverseTransform w1) as (H1 & H2 & H3 & H4).
  { rewrite E2. repeat split. }
  rewrite H1, H2, H3, H4. unfold value, drrPixelWorld.
  destruct (cast_ray _ _ _ _ _ _ _); reflexivity.
Qed.

(** [ready] after the caller has moved the pose center. *)
Definition moved : Interp.t :=
  PoseChanged (fun p => Transform.SetCenter (mkVec3 (6 # 1) (5 # 1) (5 # 1)) p) ready.

Lemma stale_Evaluate_as_after_Initialize_witness :
  exists w2, Initialize moved = Ok w2 /\
    value (Evaluate 100 moved pixel_hit) = value (Evaluate 100 w2 pixel_hit).
Proof.
  destruct (Initialize moved) as [w2|d| |] eqn:E; [|vm_compute in E; discriminate ..].
  exists w2. split; [reflexivity|].
  apply (@stale_Evaluate_as_after_Initialize Examples.half_tangent Examples.wide_output
           100 moved w2 pixel_hit); [vm_compute; reflexivity | exact E].
Defined.

(** X13. A setter call that changes a value, made after the pose object was
    modified, hides the modification: the interpolator's time stamp becomes
    the latest, the staleness test is false, and the next [Evaluate] keeps
    the inverse transform built for the former pose. *)
Theorem setter_hides_pose_change {libm : Libm} {out : OutputTraits}
    (w : Interp.t) (f : Transform.t -> Transform.t) :
  clock_ok w ->
  stale (PoseChanged f w) = true /\
  (forall x, Qeq_bool (m_Threshold w) x = false ->
     let w1 := SetThreshold x (PoseChanged f w) in
     stale w1 = false /\ refresh w1 = Ok w1 /\
     m_InverseTransform w1 = m_InverseTransform w) /\
  (forall a, Qeq_bool (m_ProjectionAngle w) a = false ->
     let w1 := SetProjectionAngle a (PoseChanged f w) in
     stale w1 = false /\ refresh w1 = Ok w1 /\
     m_InverseTransform w1 = m_InverseTransform w) /\
  (forall d, Qeq_bool (m_FocalPointToIsocenterDistance w) d = false ->
     let w1 := SetFocalPointToIsocenterDistance d (PoseChanged f w) in
     stale w1 = false /\ refresh w1 = Ok w1 /\
     m_InverseTransform w1 = m_InverseTransform w).
Proof.
  intros (Hm & Hp).
  assert (forall u, stale u = false -> refresh u = Ok u) as Hr.
  { intros u Hu. unfold refresh. rewrite Hu. reflexivity. }
  split; [|split; [|split]].
  - unfold stale, PoseChanged. cbn [MTime m_Transform mtime]. apply N.ltb_lt. lia.
  - intros x E w1. subst w1. unfold SetThreshold.
    change (m_Threshold (PoseChanged f w)) with (m_Threshold w). rewrite E.
    assert (stale (Modified
      (Interp.mk (clock (PoseChanged f w)) (MTime (PoseChanged f w))
         (image (PoseChanged f w)) (m_Transform (PoseChanged f w))
         (m_InverseTransform (PoseChanged f w)) x
         (m_FocalPointToIsocenterDistance (PoseChanged f w))
         (m_ProjectionAngle (PoseChanged f w))
         (m_GantryRotTransform (PoseChanged f w)) (m_CamShiftTransform (PoseChanged f w))
         (m_CamRotTransform (PoseChanged f w)) (m_ComposedTransform (PoseChanged f w))
         (m_SourcePoint (PoseChanged f w)) (m_SourceWorld (PoseChanged f w)))) = false) as Hs.
    { unfold stale, Modified, PoseChanged. cbn [MTime clock m_Transform mtime].
      apply N.ltb_ge. lia. }
    split; [exact Hs|]. split; [apply Hr, Hs | reflexivity].
  - intros a E w1. subst w1. unfold SetProjectionAngle.
    change (m_ProjectionAngle (PoseChanged f w)) with (m_ProjectionAngle w). rewrite E.
    assert (stale (Modified
      (Interp.mk (clock (PoseChanged f w)) (MTime (PoseChanged f w))
         (image (PoseChanged f w)) (m_Transform (PoseChanged f w))
         (m_InverseTransform (PoseChanged f w)) (m_Threshold (PoseChanged f w))
         (m_FocalPointToIsocenterDistance (PoseChanged f w)) a
         (m_GantryRotTransform (PoseChanged f w)) (m_CamShiftTransform (PoseChanged f w))
         (m_CamRotTransform (PoseChanged f w)) (m_ComposedTransform (PoseChanged f w))
         (m_SourcePoint (PoseChanged f w)) (m_SourceWorld (PoseChanged f w)))) = false) as Hs.
    { unfold stale, Modified, PoseChanged. cbn [MTime clock m_Transform mtime].
      apply N.ltb_ge. lia. }
    split; [exact Hs|]. split; [apply Hr, Hs | reflexivity].
  - intros d E w1. subst w1. unfold SetFocalPointToIsocenterDistance.
    change (m_FocalPointToIsocenterDistance (PoseChanged f w))
      with (m_FocalPointToIsocenterDistance w). rewrite E.
    assert (stale (Modified
      (Interp.mk (clock (PoseChanged f w)) (MTime (PoseChanged f w))
         (image (PoseChanged f w)) (m_Transform (PoseChanged f w))
         (m_InverseTransform (PoseChanged f w)) (m_Threshold (PoseChanged f w)) d
         (m_ProjectionAngle (PoseChanged f w))
         (m_GantryRotTransform (PoseChanged f w)) (m_CamShiftTransform (PoseChanged f w))
         (m_CamRotTransform (PoseChanged f w)) (m_ComposedTransform (PoseChanged f w))
         (m_SourcePoint (PoseChanged f w)) (m_SourceWorld (PoseChanged f w)))) = false) as Hs.
    { unfold stale, Modified, PoseChanged. cbn [MTime clock m_Transform mtime].
      apply N.ltb_ge. lia. }
    split; [exact Hs|]. split; [apply Hr, Hs | reflexivity].
Qed.

Lemma setter_hides_pose_change_witness :
  stale moved = true /\
  stale (SetThreshold (1 # 1) moved) = false /\
  m_InverseTransform (SetThreshold (1 # 1) moved) = m_InverseTransform ready.
Proof.
  destruct (@setter_hides_pose_change Examples.half_tangent Examples.wide_output ready
              (fun p => Transform.SetCenter (mkVec3 (6 # 1) (5 # 1) (5 # 1)) p))
    as (H1 & H2 & _).
  - split; vm_compute; intro C; discriminate.
  - destruct (H2 (1 # 1) eq_refl) as (H3 & _ & H5).
    split; [exact H1|]. split; [exact H3 | exact H5].
Defined.

(** * States reached from the constructor *)

Section Reachable.

Context {libm : Libm} {out : OutputTraits}.

(** The objects obtained from the constructor by the public methods and by
    changes the caller makes to the pose object. *)
Inductive reachable : Interp.t -> Prop :=
| reach_New clock0 img pose heap :
    (mtime pose <= clock0)%N -> reachable (New clock0 img pose heap)
| reach_SetInputImage w img : reachable w -> reachable (SetInputImage img w)
| reach_SetTransform w p :
    reachable w -> (mtime p <= clock w)%N -> reachable (SetTransform p w)
| reach_SetFocalPointToIsocenterDistance w d :
    reachable w -> reachable (SetFocalPointToIsocenterDistance d w)
| reach_SetProjectionAngle w a : reachable w -> reachable (SetProjectionAngle a w)
| reach_SetThreshold w x : reachable w -> reachable (SetThreshold x w)
| reach_PoseChanged w f : reachable w -> reachable (PoseChanged f w)
| reach_Initialize w w' : reachable w -> Initialize w = Ok w' -> reachable w'
| reach_Evaluate w fuel point w' v :
    reachable w -> Evaluate fuel w point = Ok (w', v) -> reachable w'.

Lemma Modified_clock (w : Interp.t) :
  (mtime (m_Transform w) <= clock w)%N -> clock_ok (Modified w).
Proof. intro H. unfold clock_ok, Modified. cbn [MTime clock m_Transform]. lia. Qed.

Lemma setters_clock_ok (w : Interp.t) :
  clock_ok w ->
  (forall p, (mtime p <= clock w)%N -> clock_ok (SetTransform p w)) /\
  (forall d, clock_ok (SetFocalPointToIsocenterDistance d w)) /\
  (forall a, clock_ok (SetProjectionAngle a w)) /\
  (forall x, clock_ok (SetThreshold x w)) /\
  (forall f, clock_ok (PoseChanged f w)) /\
  (forall img, clock_ok (SetInputImage img w)).
Proof.
  intros (Hm & Hp).
  split; [|split; [|split; [|split; [|split]]]].
  - intros p Hpt. unfold SetTransform.
    destruct (N.eqb _ _); [split; assumption|]. apply Modified_clock. exact Hpt.
  - intro d. unfold SetFocalPointToIsocenterDistance.
    destruct (Qeq_bool _ _); [split; assumption|]. apply Modified_clock. exact Hp.
  - intro a. unfold SetProjectionAngle.
    destruct (Qeq_bool _ _); [split; assumption|]. apply Modified_clock. exact Hp.
  - intro x. unfold SetThreshold.
    destruct (Qeq_bool _ _); [split; assumption|]. apply Modified_clock. exact Hp.
  - intro f. unfold clock_ok, PoseChanged. cbn [MTime clock m_Transform mtime]. lia.
  - intro img. split; assumption.
Qed.

End Reachable.

(** X14. Every object reached from the constructor keeps what the
    constructor set up: the source point is (0,0,0), the camera rotation is
    the one built by the constructor, the shift transform has the identity
    matrix and the gantry transform no translation; and no time stamp
    exceeds the global counter. *)
Theorem reachable_invariant {libm : Libm} {out : OutputTraits} (w : Interp.t) :
  reachable w ->
  constructed w /\ clock_ok w /\ m_SourcePoint w = mkVec3 0 0 0.
Proof.
  intro R.
  assert (constructed w /\ clock_ok w) as (Hc & Hk);
    [|split; [exact Hc|]; split; [exact Hk | apply Hc]].
  induction R as [clock0 img pose heap Hp | w img R IH | w p R IH Hp | w d R IH
                 | w a R IH | w x R IH | w f R IH | w w' R IH I
                 | w fuel point w' v R IH E].
  - split; [apply New_constructed|]. unfold clock_ok, New. cbn [MTime clock m_Transform].
    split; [apply N.le_refl | exact Hp].
  - destruct IH as (Hc & Hk). split; [exact Hc|]. apply (setters_clock_ok w Hk).
  - destruct IH as (Hc & Hk).
    split; [apply (setters_constructed w Hc) | apply (setters_clock_ok w Hk), Hp].
  - destruct IH as (Hc & Hk).
    split; [apply (setters_constructed w Hc) | apply (setters_clock_ok w Hk)].
  - destruct IH as (Hc & Hk).
    split; [apply (setters_constructed w Hc) | apply (setters_clock_ok w Hk)].
  - destruct IH as (Hc & Hk).
    split; [apply (setters_constructed w Hc) | apply (setters_clock_ok w Hk)].
  - destruct IH as (Hc & Hk).
    split; [apply (setters_constructed w Hc) | apply (setters_clock_ok w Hk)].
  - destruct IH as (Hc & Hk).
    split; [apply (Initialize_constructed w w' Hc I) | apply (Initialize_clock w w' Hk I)].
  - destruct IH as (Hc & Hk).
    split; [apply (Evaluate_constructed fuel w w' point v Hc E)|].
    destruct (Evaluate_Ok_inv _ _ _ _ _ E) as (Rf & _).
    destruct (refresh_Ok_cases w w' Rf) as [(_ & ->) | (_ & C)]; [exact Hk|].
    apply (ComputeInverseTransform_clock w w' Hk C).
Qed.

Lemma reachable_invariant_witness :
  constructed ready /\ clock_ok ready /\ m_SourcePoint ready = mkVec3 0 0 0.
Proof.
  apply (@reachable_invariant Examples.half_tangent Examples.wide_output ready).
  apply (reach_Initialize (Examples.fresh_interp (mkVec3 5 5 5)) ready).
  - apply reach_New. vm_compute. intro C. discriminate.
  - vm_compute. reflexivity.
Defined.

(** * The source, the isocenter and the projection angle *)

Section SourceGeometry.

Context {libm : Libm} {out : OutputTraits}.

Lemma camera_rotation_veq (a b : Point) :
  a =v= b -> camera_rotation a =v= camera_rotation b.
Proof.
  intros (A0 & A1 & A2). unfold camera_rotation, veq. cbn [c0 c1 c2].
  rewrite A0, A1, A2. repeat split; reflexivity.
Qed.

Lemma source_shift_veq (w : Interp.t) (a b : Point) :
  a =v= b -> source_shift w a =v= source_shift w b.
Proof. intro H. unfold source_shift. apply vadd_veq; [exact H | apply veq_refl]. Qed.

Lemma gantry_rotation_veq (w : Interp.t) (a b : Point) :
  a =v= b -> gantry_rotation w a =v= gantry_rotation w b.
Proof.
  intros (A0 & A1 & A2). unfold gantry_rotation. crush_vec.
  rewrite A0, A1, A2. repeat split; reflexivity.
Qed.

(** The gantry rotation leaves the isocenter where it is. *)
Lemma gantry_rotation_isocenter (w : Interp.t) :
  gantry_rotation w (center (m_Transform w)) =v= center (m_Transform w).
Proof. unfold gantry_rotation. crush_vec. repeat split; ring. Qed.

(** The world point that the stages send to the origin of ray space. *)
Definition source_in_world (w : Interp.t) : Point :=
  let c := center (m_Transform w) in
  let D := m_FocalPointToIsocenterDistance w in
  mkVec3 (c0 c - D * sin_ (- m_ProjectionAngle w))
         (c1 c - D * cos_ (- m_ProjectionAngle w))
         (c2 c).

Lemma gantry_rotation_source (w : Interp.t) :
  cos_ (- m_ProjectionAngle w) * cos_ (- m_ProjectionAngle w) +
  sin_ (- m_ProjectionAngle w) * sin_ (- m_ProjectionAngle w) == 1 ->
  gantry_rotation w (source_in_world w) =v=
  mkVec3 (c0 (center (m_Transform w)))
         (c1 (center (m_Transform w)) - m_FocalPointToIsocenterDistance w)
         (c2 (center (m_Transform w))).
Proof.
  intro U. unfold gantry_rotation, source_in_world, RotationZ. crush_vec.
  set (C := cos_ (- m_ProjectionAngle w)) in *.
  set (S := sin_ (- m_ProjectionAngle w)) in *.
  set (D := m_FocalPointToIsocenterDistance w).
  split; [ring|]. split; [|ring].
  match goal with |- ?l == _ =>
    assert (l == c1 (center (m_Transform w)) - D * (C * C + S * S)) as E by ring
  end.
  rewrite E, U. ring.
Qed.

End SourceGeometry.




(** A new interpolator with the projection angle set to a quarter turn. *)
Definition turned : Interp.t :=
  SetProjectionAngle 1 (Examples.fresh_interp (mkVec3 5 5 5)).


(** * When the inverse transform exists *)

Section Determinant.

Context {libm : Libm} {out : OutputTraits}.

Lemma det_mat_mul (a b : Mat3) : det (mat_mul a b) == det a * det b.
Proof.
  unfold det, mat_mul, row_mat, col, dot. cbn [c0 c1 c2 nth3]. ring.
Qed.

Lemma det_mat_id : det mat_id == 1.
Proof. unfold det, mat_id. cbn [c0 c1 c2]. ring. Qed.

Lemma det_RotationX (a : Q) : det (RotationX a) == cos_ a * cos_ a + sin_ a * sin_ a.
Proof. unfold det, RotationX. cbn [c0 c1 c2]. ring. Qed.

Lemma det_RotationY (a : Q) : det (RotationY a) == cos_ a * cos_ a + sin_ a * sin_ a.
Proof. unfold det, RotationY. cbn [c0 c1 c2]. ring. Qed.

Lemma det_RotationZ (a : Q) : det (RotationZ a) == cos_ a * cos_ a + sin_ a * sin_ a.
Proof. unfold det, RotationZ. cbn [c0 c1 c2]. ring. Qed.

Lemma composed_matrix (w : Interp.t) :
  matrix (composed w) =
  mat_mul (matrix (m_CamRotTransform w))
    (mat_mul (matrix (m_CamShiftTransform w))
       (mat_mul (mat_mul (mat_mul (RotationZ (- m_ProjectionAngle w)) (RotationY 0))
                         (RotationX 0))
          (mat_mul (matrix (m_Transform w)) mat_id))).
Proof. reflexivity. Qed.

Hypothesis cos_zero : cos_ 0 == 1.
Hypothesis sin_zero : sin_ 0 == 0.
Hypothesis cos_quarter : cos_ (dtr * (-90 # 1)) == 0.
Hypothesis sin_quarter : sin_ (dtr * (-90 # 1)) == - (1).

(** The stages other than the pose have determinant 1. *)
Lemma det_composed (w : Interp.t) :
  constructed w ->
  cos_ (- m_ProjectionAngle w) * cos_ (- m_ProjectionAngle w) +
  sin_ (- m_ProjectionAngle w) * sin_ (- m_ProjectionAngle w) == 1 ->
  det (matrix (composed w)) == det (matrix (m_Transform w)).
Proof.
  intros (Hs & _ & (q & Hcam) & _) U.
  rewrite composed_matrix, Hs, Hcam.
  change (matrix (SetRotation (dtr * (-90 # 1)) 0 0 (SetIdentity (Transform.New q))))
    with (mat_mul (mat_mul (RotationZ 0) (RotationY 0)) (RotationX (dtr * (-90 # 1)))).
  rewrite !det_mat_mul, !det_mat_id, !det_RotationX, !det_RotationY, !det_RotationZ.
  rewrite U, !cos_zero, !sin_zero, !cos_quarter, !sin_quarter. ring.
Qed.

End Determinant.

Section Totality.

Context {libm : Libm} {out : OutputTraits}.

Lemma Evaluate_value_after_refresh (w w' : Interp.t) (point : Point) :
  (forall k, 0 < nth3 (ctPixelSpacing (image w')) k) ->
  refresh w = Ok w' ->
  exists fuel v, Evaluate fuel w point = Ok (w', v).
Proof.
  intros Hsp R.
  destruct (setup_spacing_nonzero (image w') (SourceWorld w') (drrPixelWorld w' point))
    as (fx & fy & fz & Hs).
  { intros k C. specialize (Hsp k). lra. }
  set (su := setup_of (image w') (SourceWorld w') (drrPixelWorld w' point) fx fy fz) in *.
  pose proof (setup_increments_positive _ _ _ _ Hsp Hs) as Hu.
  destruct (while_terminates (image w') (m_Threshold w') su Hu (entry su)) as (st & _ & W).
  exists (budget su (entry su)), (clamp minOutputValue maxOutputValue (d12 st)).
  rewrite (Evaluate_refresh _ w point w' R). unfold cast_ray.
  rewrite Hs. cbn [bind]. rewrite (W _ (Nat.le_refl _)). reflexivity.
Qed.

End Totality.



(** * Axes the ray does not move on *)

Section ParallelAxes.

Variable img : Image.
Variable thr : Q.
Variables src dst : Point.
Variable su : Setup.
Hypothesis su_setup : setup img src dst = Ok su.

Definition parallel (k : Axis) : Prop := nth3 (rayVector src dst) k == 0.

(** Along the parallel axes the running value is the sentinel 2 and the
    index is the entry index. *)
Definition calm (st : Trav) : Prop :=
  forall k, parallel k ->
    alpha_of st k = 2 # 1 /\ nth3 (cIndex st) k = nth3 (cIndex (entry su)) k.

Lemma entry_calm : calm (entry su).
Proof.
  intros k Hk.
  destruct (setup_Ok_inv _ _ _ _ su_setup) as (fx & fy & fz & _ & _ & _ & E).
  split; [|reflexivity].
  rewrite E. destruct k; cbn [alpha_of entry setup_of alphaX alphaY alphaZ];
    apply start_parallel, Hk.
Qed.

Lemma alphaMax_sentinel (k : Axis) : parallel k -> alphaMax su <= 2 # 1.
Proof.
  intro Hk.
  destruct (setup_Ok_inv _ _ _ _ su_setup) as (fx & fy & fz & _ & _ & _ & E).
  rewrite E. cbn [alphaMax setup_of].
  destruct (alphaMax_of_le (bounds img src dst AxX) (bounds img src dst AxY)
              (bounds img src dst AxZ)) as (Bx & By & Bz).
  pose proof (bounds_parallel img src dst k Hk) as B.
  destruct k; rewrite B in *; cbn [snd] in *; assumption.
Qed.

Lemma parallel_pick_ends (st : Trav) :
  calm st -> parallel (pick st) -> guard su (body img thr su st) = false.
Proof.
  intros Hc Hp. unfold guard. rewrite body_alphaCmin.
  destruct (Hc _ Hp) as (-> & _). apply Qltb_false, (alphaMax_sentinel _ Hp).
Qed.

Lemma body_calm (st : Trav) :
  calm st -> ~ parallel (pick st) -> calm (body img thr su st).
Proof.
  intros Hc Hn k Hk. destruct (Hc k Hk) as (Ha & Hi).
  assert (axis_eqb k (pick st) = false) as E.
  { destruct k, (pick st) eqn:P; try reflexivity; exfalso; apply Hn; exact Hk. }
  split.
  - rewrite body_alpha, advance_alpha.
    destruct k, (pick st); try discriminate E; exact Ha.
  - rewrite body_index, advance_index, E. exact Hi.
Qed.

Lemma head_calm (n : nat) (st : Trav) :
  head_at img thr su n (entry su) = Some st -> guard su st = false \/ calm st.
Proof.
  apply (head_at_invariant img thr su (fun s => guard su s = false \/ calm s)).
  - intros s [G | Hc] G'; [congruence|].
    destruct (Qeq_dec (nth3 (rayVector src dst) (pick s)) 0) as [P | P].
    + left. apply (parallel_pick_ends s Hc P).
    + right. apply (body_calm s Hc P).
  - right. apply entry_calm.
Qed.

End ParallelAxes.

(** X18. Along an axis on which the ray has a zero component, at every loop
    head where the loop goes on the running value is still the sentinel 2
    and the voxel index is still the entry index; if the loop steps such an
    axis, that iteration is the last one. *)
Theorem parallel_axis_untouched (img : Image) (thr : Q) (src dst : Point)
    (su : Setup) (n : nat) (st : Trav) (k : Axis) :
  setup img src dst = Ok su ->
  head_at img thr su n (entry su) = Some st ->
  guard su st = true ->
  nth3 (rayVector src dst) k == 0 ->
  alpha_of st k = 2 # 1 /\
  nth3 (cIndex st) k = nth3 (cIndex (entry su)) k /\
  (pick st = k -> guard su (body img thr su st) = false).
Proof.
  intros H Hn G Hk.
  destruct (head_calm img thr src dst su H n st Hn) as [C | Hc]; [congruence|].
  destruct (Hc k Hk) as (Ha & Hi).
  split; [exact Ha|]. split; [exact Hi|].
  intro P. apply (parallel_pick_ends img thr src dst su H st Hc).
  unfold parallel. rewrite P. exact Hk.
Qed.

Lemma parallel_axis_untouched_witness :
  exists st,
    head_at Examples.row 0 row_setup 2 (entry row_setup) = Some st /\
    alpha_of st AxY = 2 # 1 /\
    nth3 (cIndex st) AxY = nth3 (cIndex (entry row_setup)) AxY.
Proof.
  destruct (head_at Examples.row 0 row_setup 2 (entry row_setup)) as [st|] eqn:E;
    [|vm_compute in E; discriminate].
  exists st. split; [reflexivity|].
  destruct (parallel_axis_untouched Examples.row 0 Examples.origin ray_target
              row_setup 2 st AxY) as (H1 & H2 & _).
  - vm_compute. reflexivity.
  - exact E.
  - vm_compute in E. injection E as <-. vm_compute. reflexivity.
  - reflexivity.
  - split; assumption.
Defined.

(** * A detector point at the source *)

(** X19. When the detector point is the source point itself, the ray has no
    direction: every axis takes the sentinel values, the loop condition
    fails on entry, and with nonzero spacings [Evaluate] returns the clamped
    0. *)
Theorem Evaluate_at_source_point {libm : Libm} {out : OutputTraits}
    (fuel : nat) (w w' : Interp.t) :
  refresh w = Ok w' ->
  (forall k, ~ nth3 (ctPixelSpacing (image w')) k == 0) ->
  Evaluate fuel w (m_SourcePoint w') =
  Ok (w', clamp minOutputValue maxOutputValue 0).
Proof.
  intros R Hsp.
  rewrite (Evaluate_refresh fuel w _ w' R).
  unfold drrPixelWorld. fold (SourceWorld w').
  set (s := SourceWorld w').
  assert (forall k, nth3 (rayVector s s) k == 0) as Hz.
  { intro k. rewrite rayVector_nth. ring. }
  destruct (setup_spacing_nonzero (image w') s s Hsp) as (fx & fy & fz & Hs).
  unfold cast_ray. rewrite Hs. cbn [bind].
  assert (guard (setup_of (image w') s s fx fy fz)
                (entry (setup_of (image w') s s fx fy fz)) = false) as G.
  { unfold guard, setup_of. cbn [alphaMax entry alphaCmin].
    rewrite !start_parallel by apply Hz.
    rewrite !bounds_parallel by apply Hz. reflexivity. }
  rewrite (while_exit _ _ _ _ _ G). reflexivity.
Qed.

Lemma Evaluate_at_source_point_witness :
  Evaluate 100 ready (m_SourcePoint ready) =
  Ok (ready, clamp minOutputValue maxOutputValue 0).
Proof.
  apply (@Evaluate_at_source_point Examples.half_tangent Examples.wide_output
           100 ready ready).
  - vm_compute. reflexivity.
  - intros k C. destruct k; vm_compute in C; discriminate.
Defined.
